(** * deepl-json: the caching and batching translation run

    A shallow embedding of the two-pass translator (the script whose
    [main] collects entries with [addEntry], submits them in batches and
    rebuilds the document with [translate]), followed by the properties
    of its placeholder codec, entry cache, tree walker and batcher.

    Conventions of the embedding.
    - A JavaScript string is a [string]; its characters are the 8-bit
      [ascii] characters, so the line terminators the regular expressions
      can see are LF and CR, and [length] counts these characters.
    - A plain object used as a dictionary ([cache], [newObject], the
      objects of the document) is the list of its own properties in
      insertion order, which is the order [Object.keys] enumerates keys
      that are not array indices.  Only own properties are followed: a
      read or a write by a name that [Object.prototype] defines, such as
      [toString] or [__proto__], is outside the embedding, and the general
      statements about a read of [cache] by the key of a text say so with
      the hypothesis that the key is not one of [Object_prototype].
    - [placeholderMap] is the [Map]; it is a [gmap].
    - An [async] function is a state transformer that either returns or
      throws; every [await] in the script is sequential.
    - The translation provider is a function from the texts of a batch to
      the texts of the response, or to what the call throws. *)

From stdpp Require Import base option list strings gmap pretty.
From Stdlib Require Import Ascii.


(** ** Regular expressions *)

Module RegExp.

(** A pattern tells whether it matches at the very start of its argument
    and, if so, with which prefix. *)
Definition pattern := string → option string.

Definition is_line_terminator (c : ascii) : bool :=
  bool_decide (c = "010"%char) || bool_decide (c = "013"%char).

(** [.] without the [s] flag. *)
Definition dot (c : ascii) : bool := negb (is_line_terminator c).

(** [\d]. *)
Definition is_digit (c : ascii) : bool :=
  match Ascii.is_nat c with Some _ => true | None => false end.

(** A literal: the rest of [s] after the prefix [p], if [s] starts with it. *)
Fixpoint strip_prefix (p s : string) : option string :=
  match p with
  | EmptyString => Some s
  | String a p' =>
      match s with
      | EmptyString => None
      | String b s' => if bool_decide (a = b) then strip_prefix p' s' else None
      end
  end.

(** [any*?] followed by the literal [close], where [any] is the class of
    characters the quantified atom accepts: the lazy quantifier tries the
    continuation first and takes one more character only when it fails. *)
Fixpoint lazy_until (any : ascii → bool) (close : string) (s : string)
  : option string :=
  match strip_prefix close s with
  | Some _ => Some close
  | None =>
      match s with
      | EmptyString => None
      | String c s' =>
          if any c then String c <$> lazy_until any close s' else None
      end
  end.

(** The longest run of digits at the start of [s]. *)
Fixpoint digits_of (s : string) : string :=
  match s with
  | EmptyString => EmptyString
  | String c s' => if is_digit c then String c (digits_of s') else EmptyString
  end.

Fixpoint drop_string (n : nat) (s : string) : string :=
  match n, s with
  | S n', String _ s' => drop_string n' s'
  | _, _ => s
  end.

(** [/\{\{.*?\}\}/], parameterised by the class matched by the dot. *)
Definition braces (any : ascii → bool) : pattern := λ s,
  body ← strip_prefix "{{" s;
  m ← lazy_until any "}}" body;
  Some ("{{" +:+ m).

(** [/\{\{.*?\}\}/] as the script writes it. *)
Definition placeholder_re : pattern := braces dot.

(** [/<t\d+\/>/].  The greedy [\d+] takes the whole run of digits: giving
    one back would leave a digit where [/] is required. *)
Definition marker_re : pattern := λ s,
  s1 ← strip_prefix "<t" s;
  let d := digits_of s1 in
  if bool_decide (d = "") then None
  else _ ← strip_prefix "/>" (drop_string (String.length d) s1);
       Some ("<t" +:+ d +:+ "/>").

(** The pieces a global scan cuts a string into. *)
Inductive piece :=
  | Lit (c : ascii)
  | Hit (m : string).

(** A scan with the [g] flag.  [skip] is the number of characters still
    covered by the previous match, that is, the distance to [lastIndex]:
    the search resumes where the previous match ended. *)
Fixpoint scan_from (re : pattern) (skip : nat) (s : string) : list piece :=
  match s with
  | EmptyString => []
  | String c s' =>
      match skip with
      | S k => scan_from re k s'
      | O =>
          match re s with
          | Some m => Hit m :: scan_from re (String.length m - 1) s'
          | None => Lit c :: scan_from re 0 s'
          end
      end
  end.

Definition scan (re : pattern) (s : string) : list piece := scan_from re 0 s.

Fixpoint hits (ps : list piece) : list string :=
  match ps with
  | [] => []
  | Lit _ :: ps' => hits ps'
  | Hit m :: ps' => m :: hits ps'
  end.

(** [s.match(re)] with the [g] flag: every match, or [null]. *)
Definition js_match (re : pattern) (s : string) : option (list string) :=
  match hits (scan re s) with
  | [] => None
  | ms => Some ms
  end.

(** The replacer callbacks of the script take no argument: they read a
    local counter [i] and post-increment it.  [replacer i] is what the
    callback returns when the counter holds [i]. *)
Fixpoint replace_pieces (replacer : nat → string) (i : nat) (ps : list piece)
  : string :=
  match ps with
  | [] => ""
  | Lit c :: ps' => String c (replace_pieces replacer i ps')
  | Hit _ :: ps' => replacer i +:+ replace_pieces replacer (S i) ps'
  end.

(** [s.replace(re, () => replacer(i++))] with [let i = 0] before it. *)
Definition js_replace (re : pattern) (s : string) (replacer : nat → string)
  : string :=
  replace_pieces replacer 0 (scan re s).

End RegExp.

Import RegExp.

(** ** Values, state and control *)

(** A parsed JSON document.  A number is carried as an integer: the script
    never looks inside one. *)
Unset Elimination Schemes.
Inductive json :=
  | JNull
  | JBool (b : bool)
  | JNumber (n : Z)
  | JString (s : string)
  | JArray (items : list json)
  | JObject (entries : list (string * json)).
Set Elimination Schemes.

(** A plain object used as a dictionary: its own properties, in the order
    [Object.keys] lists them. *)
Definition object (V : Type) := list (string * V).

(** The names a plain object inherits from [Object.prototype]: under
    them [o[k]] is a function, or the prototype itself, when [o] has no
    own property of the name. *)
Definition Object_prototype : list string :=
  ["constructor"; "__defineGetter__"; "__defineSetter__"; "hasOwnProperty";
   "__lookupGetter__"; "__lookupSetter__"; "isPrototypeOf";
   "propertyIsEnumerable"; "toString"; "valueOf"; "__proto__";
   "toLocaleString"].

(** [o[k]] for a name that is not one of [Object_prototype]: the own
    property; [None] is [undefined]. *)
Fixpoint obj_get {V} (o : object V) (k : string) : option V :=
  match o with
  | [] => None
  | (k', v) :: o' => if bool_decide (k' = k) then Some v else obj_get o' k
  end.

(** [o[k] = v] for a name other than [__proto__]: an existing property
    keeps its place, a new one goes last. *)
Fixpoint obj_set {V} (o : object V) (k : string) (v : V) : object V :=
  match o with
  | [] => [(k, v)]
  | (k', v') :: o' =>
      if bool_decide (k' = k) then (k, v) :: o' else (k', v') :: obj_set o' k v
  end.

Definition Object_keys {V} (o : object V) : list string := o.*1.

(** [!o[k]] for a dictionary of strings: [undefined] and the empty string
    are the falsy values. *)
Definition falsy (v : option string) : bool :=
  match v with
  | None => true
  | Some s => bool_decide (s = "")
  end.

(** The module-level variables [cache], [totalChars] and [placeholderMap]. *)
Record state := State {
  cache : object string;
  totalChars : nat;
  placeholderMap : gmap string (list string)
}.

Definition initial_state : state :=
  {| cache := []; totalChars := 0; placeholderMap := ∅ |}.

(** What is thrown: an [Error] with its message. *)
Inductive error :=
  | Error (message : string)
  | TypeError (message : string).

Inductive outcome (A : Type) :=
  | Returned (a : A)
  | Thrown (e : error).
Arguments Returned {A} a.
Arguments Thrown {A} e.

(** An [async] function body run to completion. *)
Definition M (A : Type) : Type := state → outcome (A * state).

#[global] Instance M_ret : MRet M := λ A a st, Returned (a, st).
#[global] Instance M_bind : MBind M := λ A B f m st,
  match m st with
  | Returned (a, st') => f a st'
  | Thrown e => Thrown e
  end.

#[global] Instance M_fmap : FMap M := λ A B f m st,
  match m st with
  | Returned (a, st') => Returned (f a, st')
  | Thrown e => Thrown e
  end.

Definition throw {A} (e : error) : M A := λ _, Thrown e.
Definition get_state : M state := λ st, Returned (st, st).
Definition put_state (st : state) : M unit := λ _, Returned (tt, st).
Definition when (b : bool) (m : M unit) : M unit := if b then m else mret tt.

(** ** The script *)

Fixpoint take_string (n : nat) (s : string) : string :=
  match n, s with
  | S n', String c s' => String c (take_string n' s')
  | _, _ => ""
  end.

Definition truncateString (str : string) (num : nat) : string :=
  if bool_decide (num < String.length str)
  then take_string num str +:+ "..."
  else str.

(** The callback [() => `<t${i++}/>`]. *)
Definition marker (i : nat) : string := "<t" +:+ pretty i +:+ "/>".

(** The two lines shared by [addEntry] and [translate]: the matches of the
    placeholder pattern ([null] when there is none) and the text with the
    i-th match replaced by the i-th marker. *)
Definition normalize (text : string) : string * option (list string) :=
  match js_match placeholder_re text with
  | None => (text, None)
  | Some placeholders =>
      (js_replace placeholder_re text marker, Some placeholders)
  end.

(** [storedPlaceholders[i]], turned into text by [replace]. *)
Definition stored_at (storedPlaceholders : list string) (i : nat) : string :=
  default "undefined" (storedPlaceholders !! i).

(** The last statement of [translate]. *)
Definition restore (translatedText : string) (storedPlaceholders : list string)
  : string :=
  js_replace marker_re translatedText (stored_at storedPlaceholders).

(** [addEntry] on a string argument. *)
Definition addEntry_string (text : string) : M unit :=
  if bool_decide (text = "") then mret tt
  else
    st ← get_state;
    match normalize text with
    | (_, None) =>
        when (falsy (obj_get (cache st) text))
          (put_state {| cache := obj_set (cache st) text "";
                        totalChars := totalChars st + String.length text;
                        placeholderMap := placeholderMap st |})
    | (processedText, Some placeholders) =>
        when (falsy (obj_get (cache st) processedText))
          (put_state {| cache := obj_set (cache st) processedText "";
                        totalChars :=
                          totalChars st + String.length processedText;
                        placeholderMap :=
                          <[processedText := placeholders]> (placeholderMap st) |})
    end.

(** [addEntry]: anything that is not a non-empty string is handed back
    untouched, and so is the string once it is recorded. *)
Definition addEntry (text : json) : M json :=
  match text with
  | JString s => _ ← addEntry_string s; mret text
  | _ => mret text
  end.

(** [translate] on a string argument. *)
Definition translate_string (text : string) : M string :=
  if bool_decide (text = "") then mret text
  else
    st ← get_state;
    let '(processedTextKey, originalPlaceholders) := normalize text in
    match obj_get (cache st) processedTextKey with
    | None =>
        throw (Error ("Entry not found in cache, should never happen: "
                      +:+ truncateString processedTextKey 50))
    | Some translatedText =>
        match originalPlaceholders with
        | None => mret translatedText
        | Some _ =>
            match placeholderMap st !! processedTextKey with
            | Some storedPlaceholders =>
                mret (restore translatedText storedPlaceholders)
            | None =>
                (* the callback indexes [undefined] as soon as it is called *)
                match js_match marker_re translatedText with
                | Some _ =>
                    throw (TypeError
                      "Cannot read properties of undefined (reading '0')")
                | None => mret translatedText
                end
            end
        end
    end.

Definition translate (text : json) : M json :=
  match text with
  | JString s => JString <$> translate_string s
  | _ => mret text
  end.

(** The walker and the run depend on the [--properties] option and on the
    translation provider: [translateText texts] is the list of the [text]
    fields of the response, or what the call throws. *)
Section Run.

Variable translateProperties : bool.
Variable translateText : list string → outcome (list string).

(** The loop over the slots of an array: [jsonObj[i] = await walk(jsonObj[i])]
    for each index in turn; the results are the new content of the array. *)
Fixpoint slots (walk : json → M (json * json)) (xs : list json)
  : M (list json) :=
  match xs with
  | [] => mret []
  | x :: xs' =>
      r ← walk x;
      rs ← slots walk xs';
      mret (r.1 :: rs)
  end.

(** The loop over the keys of an object.  It returns [newObject] and the
    entries of the object walked, as the loop leaves them. *)
Fixpoint props (walk : json → M (json * json)) (es : list (string * json))
  (newObject : object json) : M (object json * list (string * json)) :=
  match es with
  | [] => mret (newObject, [])
  | (key, v) :: es' =>
      translatedKey ←
        (if translateProperties then translate_string key else mret key);
      r ← walk v;
      '(newObject', es'') ← props walk es' (obj_set newObject translatedKey r.1);
      mret (newObject', (key, r.2) :: es'')
  end.

(** [traverseJSON] returns a pair: the value the call returns, and the
    argument as the call leaves it.  An array is updated in place, slot by
    slot, and returned itself, so both are the array of the results; an
    object is rebuilt, and the object passed in keeps its own keys while
    the arrays below it have been updated. *)
Fixpoint traverseJSON (action : json → M json) (jsonObj : json)
  : M (json * json) :=
  match jsonObj with
  | JArray items =>
      items' ← slots (traverseJSON action) items;
      mret (JArray items', JArray items')
  | JObject entries =>
      '(newObject, entries') ← props (traverseJSON action) entries [];
      mret (JObject newObject, JObject entries')
  | JString _ =>
      r ← action jsonObj;
      mret (r, jsonObj)
  | _ => mret (jsonObj, jsonObj)
  end.

(** One turn of the loop that fills [batches]. *)
Definition push_key (batches : list (list string)) (key : string)
  : list (list string) :=
  let batchIdx := Nat.max (length batches - 1) 0 in
  let batches :=
    match batches !! batchIdx with
    | Some _ => batches
    | None => batches ++ [[]]   (* only when [batches] is still empty *)
    end in
  let batches := alter (λ b, b ++ [key]) batchIdx batches in
  match batches !! batchIdx with
  | Some b =>
      if bool_decide (49 ≤ length b) then batches ++ [[]] else batches
  | None => batches
  end.

Definition make_batches (keys : list string) : list (list string) :=
  foldl push_key [] keys.

(** [batch[i]] used as a property name. *)
Definition batch_at (batch : list string) (i : nat) : string :=
  default "undefined" (batch !! i).

(** [response.map((res, i) => { cache[batch[i]] = res.text; })] *)
Fixpoint resolve_from (batch : list string) (i : nat) (response : list string)
  (c : object string) : object string :=
  match response with
  | [] => c
  | res :: response' =>
      resolve_from batch (S i) response' (obj_set c (batch_at batch i) res)
  end.

Definition resolve (batch response : list string) (c : object string)
  : object string :=
  resolve_from batch 0 response c.

(** The body of the loop over the batches. *)
Definition submit (batch : list string) : M unit := λ st,
  match translateText batch with
  | Thrown e => Thrown e
  | Returned response =>
      Returned (tt, {| cache := resolve batch response (cache st);
                        totalChars := totalChars st;
                        placeholderMap := placeholderMap st |})
  end.

Fixpoint submit_all (batches : list (list string)) : M unit :=
  match batches with
  | [] => mret tt
  | batch :: batches' => _ ← submit batch; submit_all batches'
  end.

(** [main] from the parsed input to the object handed to the writer,
    when neither [--usagelimit] nor [--confirm] is given: [logUsageLimit]
    does nothing and there is no prompt. *)
Definition main (inputObj : json) : M json :=
  r ← traverseJSON addEntry inputObj;
  st ← get_state;
  let keys := Object_keys (cache st) in
  _ ← submit_all (make_batches keys);
  r' ← traverseJSON translate r.2;
  mret r'.1.

(** [logUsageLimit]: with [--usagelimit] it awaits [translator.getUsage()]
    and prints what it answers; [usage] is that call with the printing,
    or what it throws. *)
Definition logUsageLimit (displayUsageLimit : bool) (usage : outcome unit)
  : M unit := λ st,
  if displayUsageLimit then
    match usage with
    | Returned _ => Returned (tt, st)
    | Thrown e => Thrown e
    end
  else Returned (tt, st).

(** The whole of [main], with the two options: [getUsage 0] and
    [getUsage 1] are the two calls of [translator.getUsage()], and [prompt]
    is [prompt.run()].  It returns the object handed to the writer, or
    [None] when the run is declined at the prompt and nothing is written;
    the last [logUsageLimit] comes after the file is written. *)
Definition main_options (displayUsageLimit askForConfirmation : bool)
  (getUsage : nat → outcome unit) (prompt : outcome bool)
  (inputObj : json) : M (option json) :=
  _ ← logUsageLimit displayUsageLimit (getUsage 0);
  r ← traverseJSON addEntry inputObj;
  st ← get_state;
  answer ←
    (if askForConfirmation then
       λ st, match prompt with
             | Returned answer => Returned (answer, st)
             | Thrown e => Thrown e
             end
     else mret true);
  if answer : bool then
    let keys := Object_keys (cache st) in
    _ ← submit_all (make_batches keys);
    r' ← traverseJSON translate r.2;
    _ ← logUsageLimit displayUsageLimit (getUsage 1);
    mret (Some r'.1)
  else mret None.

End Run.

(** ** The start of the script *)

(** [s.indexOf(p) >= 0]: [p] occurs in [s]. *)
Fixpoint includes (p s : string) : bool :=
  match strip_prefix p s with
  | Some _ => true
  | None =>
      match s with
      | EmptyString => false
      | String _ s' => includes p s'
      end
  end.

(** [getJsonFileInFolder] on the listing of the current directory: each
    name [readdirSync] returns, with what [lstatSync(name).isDirectory()]
    answers for it.  [path.join] of one name is the name. *)
Fixpoint getJsonFileInFolder (files : list (string * bool)) : option string :=
  match files with
  | [] => None
  | (filename, isDirectory) :: files' =>
      if negb isDirectory && includes ".json" filename then Some filename
      else getJsonFileInFolder files'
  end.

(** [s.split(sep)] for a separator of one character. *)
Fixpoint split_on (sep : ascii) (s : string) : list string :=
  match s with
  | EmptyString => [""]
  | String c s' =>
      if bool_decide (c = sep) then "" :: split_on sep s'
      else
        match split_on sep s' with
        | piece :: pieces => String c piece :: pieces
        | [] => [String c ""]
        end
  end.

(** [pieces.join(sep)]. *)
Fixpoint join (sep : string) (pieces : list string) : string :=
  match pieces with
  | [] => ""
  | [piece] => piece
  | piece :: pieces' => piece +:+ sep +:+ join sep pieces'
  end.

(** [s.toLowerCase()] on characters below 256: the capital letters of
    ASCII and of Latin-1 are 32 below their small letters. *)
Definition toLowerCase_char (c : ascii) : ascii :=
  let n := N_of_ascii c in
  if ((65 <=? n) && (n <=? 90)
      || (192 <=? n) && (n <=? 222) && negb (n =? 215))%N
  then ascii_of_N (n + 32)
  else c.

Fixpoint toLowerCase (s : string) : string :=
  match s with
  | EmptyString => EmptyString
  | String c s' => String (toLowerCase_char c) (toLowerCase s')
  end.

(** The output file name: [options.output] unless it is missing or empty,
    and then the input file name with what follows its last dot replaced
    by the target language in small letters and [.json]. *)
Definition outputFileName (output : option string)
  (inputFileName targetLanguage : string) : string :=
  if falsy output then
    let pieces := split_on "." inputFileName in
    join "." (take (length pieces - 1) pieces)
    +:+ "." +:+ toLowerCase targetLanguage +:+ ".json"
  else default "" output.

(** ** The one-pass script *)

(** The earlier script translates each string when the walk meets it.
    Its state is [cache]; [requests] lists the texts handed to the
    provider so far, oldest first. *)
Record state1 := State1 {
  cache1 : object string;
  requests : list string
}.

Definition M1 (A : Type) : Type := state1 → outcome (A * state1).

#[global] Instance M1_ret : MRet M1 := λ A a st, Returned (a, st).
#[global] Instance M1_bind : MBind M1 := λ A B f m st,
  match m st with
  | Returned (a, st') => f a st'
  | Thrown e => Thrown e
  end.

#[global] Instance M1_fmap : FMap M1 := λ A B f m st,
  match m st with
  | Returned (a, st') => Returned (f a, st')
  | Thrown e => Thrown e
  end.

Section OnePass.

Variable translateProperties : bool.

(** [translator.translateText(text, ...)] for one text: the [text] field
    of the response, or what the call throws; the answer may depend on
    the requests made before. *)
Variable translateText : list string → string → outcome string.

(** [translate] of the one-pass script, on a string argument. *)
Definition translate1 (text : string) : M1 string := λ st,
  let request :=
    match translateText (requests st) text with
    | Thrown e => Thrown e
    | Returned translatedText =>
        Returned (translatedText,
                  {| cache1 := obj_set (cache1 st) text translatedText;
                     requests := requests st ++ [text] |})
    end in
  if bool_decide (text = "") then Returned (text, st)
  else
    match obj_get (cache1 st) text with
    | Some cached =>
        if bool_decide (cached = "") then request else Returned (cached, st)
    | None => request
    end.

Fixpoint slots1 (walk : json → M1 json) (xs : list json) : M1 (list json) :=
  match xs with
  | [] => mret []
  | x :: xs' =>
      r ← walk x;
      rs ← slots1 walk xs';
      mret (r :: rs)
  end.

Fixpoint props1 (walk : json → M1 json) (es : list (string * json))
  (newObject : object json) : M1 (object json) :=
  match es with
  | [] => mret newObject
  | (key, v) :: es' =>
      translatedKey ←
        (if translateProperties then translate1 key else mret key);
      r ← walk v;
      props1 walk es' (obj_set newObject translatedKey r)
  end.

(** [translateJSON]: the value the call returns. *)
Fixpoint translateJSON (jsonObj : json) : M1 json :=
  match jsonObj with
  | JArray items => JArray <$> slots1 translateJSON items
  | JObject entries => JObject <$> props1 translateJSON entries []
  | JString s => JString <$> translate1 s
  | _ => mret jsonObj
  end.

End OnePass.

(** ** Vocabulary of the statements *)

(** The text a list of pieces was cut from. *)
Fixpoint pieces_text (ps : list piece) : string :=
  match ps with
  | [] => ""
  | Lit c :: ps' => String c (pieces_text ps')
  | Hit m :: ps' => m +:+ pieces_text ps'
  end.

(** How many markers a global scan finds in [s]. *)
Definition marker_count (s : string) : nat :=
  length (hits (scan marker_re s)).

(** What [translate] does with the translated key: it is returned as it is
    when the text had no placeholder, and restored otherwise. *)
Definition denormalize (translatedKey : string)
  (placeholders : option (list string)) : string :=
  match placeholders with
  | None => translatedKey
  | Some stored => restore translatedKey stored
  end.

(** What every pattern of the script satisfies: a match is a non-empty
    prefix of the text it is tried on. *)
Definition prefix_pattern (re : pattern) : Prop :=
  ∀ s m, re s = Some m → m ≠ "" ∧ ∃ r, s = m +:+ r.

Fixpoint string_forall (P : ascii → bool) (s : string) : bool :=
  match s with
  | EmptyString => true
  | String c s' => P c && string_forall P s'
  end.

(** A stretch of text no match starts in. *)
Fixpoint lits (s : string) : list piece :=
  match s with
  | EmptyString => []
  | String c s' => Lit c :: lits s'
  end.

(** The value a run returns, without the state it ends in. *)
Definition value_of {A} (o : outcome (A * state)) : outcome A :=
  match o with
  | Returned (a, _) => Returned a
  | Thrown e => Thrown e
  end.

(** The documents the statements about whole documents cover: no object
    has the same key twice ([JSON.parse] keeps the last one) and none has
    the key [__proto__], which an assignment does not create. *)
Fixpoint json_wf (v : json) : bool :=
  match v with
  | JArray items => forallb json_wf items
  | JObject entries =>
      bool_decide (NoDup entries.*1 ∧ "__proto__" ∉ entries.*1)
      && forallb (λ e, json_wf e.2) entries
  | _ => true
  end.

(** Forty-nine distinct keys: [k0], ..., [k48]. *)
Definition keys49 : list string := (λ n, "k" +:+ pretty n) <$> seq 0 49.

(** A provider that answers every text with itself. *)
Definition echo (texts : list string) : outcome (list string) :=
  Returned texts.

(** A cache whose only entry was translated without its marker. *)
Definition lost_marker_state : state :=
  {| cache := [("Hello <t0/>", "Bonjour")];
     totalChars := 11;
     placeholderMap := {["Hello <t0/>" := ["{{name}}"]]} |}.

(** The state [addEntry] leaves after recording [hello]. *)
Definition pending_state : state :=
  {| cache := [("hello", "")]; totalChars := 5; placeholderMap := ∅ |}.

(** The placeholder pattern in words: a match is [{{], then characters of
    the class the pattern admits, then [}}], and it is the shortest one:
    no [}}] closes it earlier. *)
Definition is_placeholder (any : ascii → bool) (m : string) : Prop :=
  ∃ body, m = "{{" +:+ body +:+ "}}" ∧
          string_forall any body = true ∧
          ∀ b r, body +:+ "}" ≠ b +:+ "}}" +:+ r.

(** [normalizes any i text key placeholders]: read from left to right,
    [text] is cut into characters at which no placeholder starts, copied
    to [key], and placeholders, each replaced in [key] by the marker that
    carries its rank, counted from [i], and listed in [placeholders]. *)
Inductive normalizes (any : ascii → bool)
  : nat → string → string → list string → Prop :=
  | normalizes_end i : normalizes any i "" "" []
  | normalizes_copy i c text key placeholders :
      (∀ m rest, is_placeholder any m → String c text ≠ m +:+ rest) →
      normalizes any i text key placeholders →
      normalizes any i (String c text) (String c key) placeholders
  | normalizes_match i m text key placeholders :
      is_placeholder any m →
      normalizes any (S i) text key placeholders →
      normalizes any i (m +:+ text) (marker i +:+ key) (m :: placeholders).

(** The string leaves of a document, in the order the walker meets them. *)
Fixpoint strings_of (v : json) : list string :=
  match v with
  | JString s => [s]
  | JArray items => concat (strings_of <$> items)
  | JObject entries => concat ((λ e, strings_of e.2) <$> entries)
  | _ => []
  end.

(** A document with every string leaf [s] replaced by [f s]. *)
Fixpoint map_strings (f : string → string) (v : json) : json :=
  match v with
  | JString s => JString (f s)
  | JArray items => JArray (map_strings f <$> items)
  | JObject entries => JObject ((λ e, (e.1, map_strings f e.2)) <$> entries)
  | _ => v
  end.

(** The state [addEntry] leaves when it is given the string [text]. *)
Definition record (text : string) (st : state) : state :=
  if bool_decide (text = "") then st
  else if falsy (obj_get (cache st) (normalize text).1) then
    {| cache := obj_set (cache st) (normalize text).1 "";
       totalChars := totalChars st + String.length (normalize text).1;
       placeholderMap :=
         match (normalize text).2 with
         | Some placeholders =>
             <[(normalize text).1 := placeholders]> (placeholderMap st)
         | None => placeholderMap st
         end |}
  else st.

(** What [translate] returns for [s] in the state [st]; [s] itself stands
    for a lookup that throws. *)
Definition translated (st : state) (s : string) : string :=
  match translate_string s st with
  | Returned (t, _) => t
  | Thrown _ => s
  end.

(** A cache in which no entry is resolved yet. *)
Definition unresolved (c : object string) : Prop := Forall (λ e, e.2 = "") c.

(** [p] occurs in [s]. *)
Definition occurs_in (p s : string) : Prop := ∃ a b, s = a +:+ p +:+ b.

(** An entry of a directory listing that [getJsonFileInFolder] accepts: it
    is not a directory and [.json] occurs in its name. *)
Definition json_file (e : string * bool) : Prop :=
  e.2 = false ∧ occurs_in ".json" e.1.

(** No dot in [s]. *)
Definition dotless (s : string) : bool :=
  string_forall (λ c, negb (bool_decide (c = "."%char))) s.

(** The cache keys of the string leaves of a document. *)
Definition keys_of (v : json) : list string :=
  (λ s, (normalize s).1) <$> strings_of v.

(** None of the [names] is one that [Object.prototype] defines. *)
Definition outside_prototype (names : list string) : bool :=
  forallb (λ k, bool_decide (k ∉ Object_prototype)) names.

(** The options let the run go through: with [--usagelimit] both calls
    of [getUsage] answer, and with [--confirm] the prompt is accepted. *)
Definition goes_through (displayUsageLimit askForConfirmation : bool)
  (getUsage : nat → outcome unit) (prompt : outcome bool) : Prop :=
  (displayUsageLimit = true → ∀ n, getUsage n = Returned tt) ∧
  (askForConfirmation = true → prompt = Returned true).

(** The state the one-pass script starts in. *)
Definition initial_state1 : state1 := {| cache1 := []; requests := [] |}.

(** A one-text provider that never answers with the empty string. *)
Definition answers_text (translateText : list string → string → outcome string)
  : Prop :=
  ∀ sent text translatedText,
    translateText sent text = Returned translatedText → translatedText ≠ "".

(** What the cache of the one-pass script holds for [text]; the empty
    string stands for no entry, and is what the script returns for the
    empty text. *)
Definition cached1 (st : state1) (text : string) : string :=
  if bool_decide (text = "") then "" else default "" (obj_get (cache1 st) text).

(** [st'] still holds every non-empty translation of the cache of [st]. *)
Definition extends (st st' : state1) : Prop :=
  ∀ text cached,
    obj_get (cache1 st) text = Some cached → cached ≠ "" →
    obj_get (cache1 st') text = Some cached.

(** A provider that answers every text with itself in brackets. *)
Definition bracket (sent : list string) (text : string) : outcome string :=
  Returned ("[" +:+ text +:+ "]").

#[local] Arguments String.append !_ _ : simpl nomatch.

(** ** Strings *)

Lemma string_app_nil_r (s : string) : s +:+ "" = s.
Proof. induction s; simpl; congruence. Qed.

Lemma string_app_assoc (s t u : string) : (s +:+ t) +:+ u = s +:+ t +:+ u.
Proof. induction s; simpl; congruence. Qed.

Lemma string_app_length (s t : string) :
  String.length (s +:+ t) = String.length s + String.length t.
Proof. induction s; simpl; congruence. Qed.

Lemma strip_prefix_Some p s r : strip_prefix p s = Some r ↔ s = p +:+ r.
Proof.
  revert s. induction p as [|a p IH]; intros s; simpl.
  - split; congruence.
  - destruct s as [|b s]; [split; discriminate|].
    case_bool_decide; subst.
    + rewrite IH. split; congruence.
    + split; [discriminate | congruence].
Qed.

Lemma strip_prefix_app p r : strip_prefix p (p +:+ r) = Some r.
Proof. by apply strip_prefix_Some. Qed.

#[local] Arguments strip_prefix : simpl never.

(** ** Scanning *)

Section Scan.

Variable re : pattern.

Lemma scan_from_skip m r :
  scan_from re (String.length m) (m +:+ r) = scan re r.
Proof. induction m; simpl; auto. Qed.

Lemma scan_nil : scan re "" = [].
Proof. reflexivity. Qed.

Lemma scan_lit c s :
  re (String c s) = None → scan re (String c s) = Lit c :: scan re s.
Proof. unfold scan; simpl. by intros ->. Qed.

Lemma scan_hit m r :
  m ≠ "" → re (m +:+ r) = Some m → scan re (m +:+ r) = Hit m :: scan re r.
Proof.
  destruct m as [|c m]; [done|]. intros _ H.
  unfold scan at 1. simpl. simpl in H. rewrite H. simpl.
  by rewrite Nat.sub_0_r, scan_from_skip.
Qed.

(** The induction that follows a scan. *)
Lemma scan_ind (P : string → list piece → Prop) :
  prefix_pattern re →
  P "" [] →
  (∀ c s, re (String c s) = None → P s (scan re s) →
          P (String c s) (Lit c :: scan re s)) →
  (∀ m r, m ≠ "" → re (m +:+ r) = Some m → P r (scan re r) →
          P (m +:+ r) (Hit m :: scan re r)) →
  ∀ s, P s (scan re s).
Proof.
  intros Hre Hnil Hlit Hhit s.
  remember (String.length s) as n eqn:Hn.
  revert s Hn. induction (lt_wf n) as [n _ IH]. intros s ->.
  destruct s as [|c s]; [exact Hnil|].
  destruct (re (String c s)) as [m|] eqn:E.
  - destruct (Hre _ _ E) as [Hm [r Hr]]. rewrite Hr in E |- *.
    rewrite (scan_hit _ _ Hm E). apply Hhit; auto.
    eapply IH; [|reflexivity].
    apply (f_equal String.length) in Hr. rewrite string_app_length in Hr.
    destruct m; [done|]. simpl in *. lia.
  - rewrite (scan_lit _ _ E). apply Hlit; auto.
    eapply IH; [|reflexivity]. simpl. lia.
Qed.

Lemma pieces_text_scan : prefix_pattern re → ∀ s, pieces_text (scan re s) = s.
Proof.
  intros Hre s. apply (scan_ind (λ s ps, pieces_text ps = s)); auto.
  - intros c t _ IH. simpl. by rewrite IH.
  - intros m r _ _ IH. simpl. by rewrite IH.
Qed.

End Scan.

(** ** The two patterns *)

Lemma digits_of_spec s :
  string_forall is_digit (digits_of s) = true ∧
  s = digits_of s +:+ drop_string (String.length (digits_of s)) s.
Proof.
  induction s as [|c s [IH1 IH2]]; simpl; [done|].
  destruct (is_digit c) eqn:E; simpl; [|done].
  rewrite E, IH1. split; [done|]. by rewrite <-IH2.
Qed.

Lemma digits_of_app d r :
  string_forall is_digit d = true →
  (∀ c r', r = String c r' → is_digit c = false) →
  digits_of (d +:+ r) = d.
Proof.
  intros Hd Hr. induction d as [|c d IH]; simpl in *.
  - destruct r as [|c r']; [done|]. simpl. by rewrite (Hr c r').
  - apply andb_prop in Hd as [-> Hd]. by rewrite IH.
Qed.

Lemma drop_string_app d r : drop_string (String.length d) (d +:+ r) = r.
Proof. induction d; simpl; auto. Qed.

(** A marker match is [<t], digits, [/>]. *)
Lemma marker_re_Some s m :
  marker_re s = Some m →
  ∃ d r, m = "<t" +:+ d +:+ "/>" ∧ s = m +:+ r ∧
         d ≠ "" ∧ string_forall is_digit d = true.
Proof.
  unfold marker_re. intros H.
  destruct (strip_prefix "<t" s) as [s1|] eqn:E1; [|done]. simpl in H.
  apply strip_prefix_Some in E1.
  case_bool_decide as Hd; [done|].
  destruct (strip_prefix "/>" _) as [r|] eqn:E2; [|done]. simpl in H.
  apply strip_prefix_Some in E2.
  destruct (digits_of_spec s1) as [Hdig Hs1].
  exists (digits_of s1), r. injection H as <-. repeat split; auto.
  rewrite E1. rewrite Hs1 at 1. rewrite E2.
  simpl. by rewrite !string_app_assoc.
Qed.

Lemma marker_re_prefix : prefix_pattern marker_re.
Proof.
  intros s m H. destruct (marker_re_Some _ _ H) as (d & r & -> & -> & _).
  split; [done|]. by exists r.
Qed.

Lemma marker_re_digits d r :
  d ≠ "" → string_forall is_digit d = true →
  marker_re ("<t" +:+ d +:+ "/>" +:+ r) = Some ("<t" +:+ d +:+ "/>").
Proof.
  intros Hd Hdig. unfold marker_re.
  rewrite strip_prefix_app. simpl.
  rewrite (digits_of_app d (String "/" (String ">" r)) Hdig).
  2:{ intros c r'. by intros [= <- _]. }
  rewrite bool_decide_false by done.
  rewrite drop_string_app.
  change (String "/" (String ">" r)) with ("/>" +:+ r).
  by rewrite strip_prefix_app.
Qed.

(** The lazy body stops at the first [}}]. *)
Lemma lazy_until_Some any s m :
  lazy_until any "}}" s = Some m →
  ∃ body r, m = body +:+ "}}" ∧ s = m +:+ r ∧
            string_forall any body = true ∧
            ∀ b r', body +:+ "}" ≠ b +:+ "}}" +:+ r'.
Proof.
  revert m. induction s as [|c s IH]; intros m; simpl.
  { destruct (strip_prefix "}}" "") eqn:E; [|done].
    by apply strip_prefix_Some in E. }
  destruct (strip_prefix "}}" (String c s)) as [r|] eqn:E.
  - intros [= <-]. apply strip_prefix_Some in E.
    exists "", r. repeat split; auto.
    intros [|x [|y b]] r'; simpl; congruence.
  - destruct (any c) eqn:Hc; [|done].
    destruct (lazy_until any "}}" s) as [m'|] eqn:E'; [|done].
    intros [= <-].
    destruct (IH _ eq_refl) as (body & r & -> & Hs & Hany & Hmin).
    exists (String c body), r. simpl. rewrite Hc, Hany.
    repeat split; auto; [congruence|].
    intros [|x b] r'; simpl.
    + intros [= -> Hb].
      assert (∃ r'', String "}" s = "}}" +:+ r'') as [r'' Hr''].
      { rewrite Hs. destruct body as [|y body]; simpl in *.
        - by eexists.
        - injection Hb as -> _. by eexists. }
      apply strip_prefix_Some in Hr''. congruence.
    + intros [= _ Hb]. by apply Hmin in Hb.
Qed.

Lemma lazy_until_complete any body r :
  string_forall any body = true →
  (∀ b r', body +:+ "}" ≠ b +:+ "}}" +:+ r') →
  lazy_until any "}}" (body +:+ "}}" +:+ r) = Some (body +:+ "}}").
Proof.
  induction body as [|c body IH]; intros Hany Hmin.
  { done. }
  simpl in Hany. apply andb_prop in Hany as [Hc Hany].
  cbn [String.append lazy_until].
  destruct (strip_prefix "}}" _) as [r0|] eqn:E.
  - exfalso. apply strip_prefix_Some in E. simpl in E. injection E as -> E.
    destruct body as [|y body]; simpl in *.
    + by apply (Hmin "" "").
    + injection E as -> _. by apply (Hmin "" (body +:+ "}")).
  - change (String "}" (String "}" r)) with ("}}" +:+ r).
    rewrite Hc, IH; auto.
    intros b r' Hb. apply (Hmin (String c b) r'). simpl. by rewrite Hb.
Qed.

(** The pattern of the script finds exactly the placeholders. *)
Lemma braces_Some any s m :
  braces any s = Some m → is_placeholder any m ∧ ∃ r, s = m +:+ r.
Proof.
  unfold braces. intros H.
  destruct (strip_prefix "{{" s) as [body0|] eqn:E; [|done]. simpl in H.
  apply strip_prefix_Some in E.
  destruct (lazy_until any "}}" body0) as [m'|] eqn:E'; [|done].
  simpl in H. injection H as <-.
  destruct (lazy_until_Some _ _ _ E') as (body & r & -> & -> & Hany & Hmin).
  split; [by exists body|]. exists r. rewrite E. simpl. by rewrite !string_app_assoc.
Qed.

Lemma braces_complete any m rest :
  is_placeholder any m → braces any (m +:+ rest) = Some m.
Proof.
  intros (body & -> & Hany & Hmin).
  unfold braces. rewrite !string_app_assoc, strip_prefix_app. simpl.
  change (String "}" (String "}" rest)) with ("}}" +:+ rest).
  by rewrite lazy_until_complete.
Qed.

Lemma braces_None any s :
  braces any s = None → ∀ m rest, is_placeholder any m → s ≠ m +:+ rest.
Proof.
  intros H m rest Hm ->. by rewrite (braces_complete _ _ _ Hm) in H.
Qed.

Lemma braces_prefix any : prefix_pattern (braces any).
Proof.
  intros s m H. destruct (braces_Some _ _ _ H) as [(body & -> & _) Hr].
  by split.
Qed.

(** Decimal numerals. *)
Lemma pretty_N_go_digits x s :
  ∃ d, pretty_N_go x s = d +:+ s ∧ string_forall is_digit d = true ∧
       ((0 < x)%N → d ≠ "").
Proof.
  revert s. induction (N.lt_wf_0 x) as [x _ IH]. intros s.
  destruct (decide (0 < x)%N) as [Hx|Hx].
  - rewrite pretty_N_go_step by done.
    destruct (IH (x `div` 10)%N (N.div_lt x 10 Hx eq_refl)
                (String (pretty_N_char (x `mod` 10)) s)) as (d & -> & Hd & _).
    exists (d +:+ String (pretty_N_char (x `mod` 10)) "").
    rewrite string_app_assoc. split; [done|]. split.
    + clear -Hd. induction d as [|c d IHd]; simpl in *.
      * rewrite andb_true_r. unfold pretty_N_char. by repeat case_match.
      * apply andb_prop in Hd as [-> Hd]. by apply IHd.
    + intros _. by destruct d.
  - assert (x = 0%N) as -> by lia. exists "". rewrite pretty_N_go_0.
    split; [done|]. split; [done|]. lia.
Qed.

Lemma pretty_nat_digits (i : nat) :
  pretty i ≠ "" ∧ string_forall is_digit (pretty i) = true.
Proof.
  unfold pretty, pretty_nat, pretty, pretty_N.
  case_decide as H0; [done|].
  destruct (pretty_N_go_digits (N.of_nat i) "") as (d & -> & Hd & Hne).
  rewrite string_app_nil_r. split; [apply Hne; lia | done].
Qed.

Lemma marker_re_marker i r : marker_re (marker i +:+ r) = Some (marker i).
Proof.
  destruct (pretty_nat_digits i) as [Hne Hd].
  unfold marker. rewrite !string_app_assoc. by apply marker_re_digits.
Qed.

Lemma marker_ne i : marker i ≠ "".
Proof. done. Qed.

#[local] Arguments marker : simpl never.

(** ** Markers in a normalized key *)

Lemma hits_lits s : hits (lits s) = [].
Proof. induction s; simpl; auto. Qed.

Lemma hits_app ps qs : hits (ps ++ qs) = hits ps ++ hits qs.
Proof.
  induction ps as [|[c|m] ps IH]; simpl; auto. by rewrite IH.
Qed.

Lemma length_lits s : length (lits s) = String.length s.
Proof. induction s; simpl; auto. Qed.

Lemma replace_pieces_lits f i s ps :
  replace_pieces f i (lits s ++ ps) = s +:+ replace_pieces f i ps.
Proof. induction s; simpl; congruence. Qed.

(** The tail of a marker holds no [<]. *)
Lemma marker_tail m s :
  marker_re s = Some m →
  ∃ m' r, m = String "<" m' ∧ s = String "<" (m' +:+ r) ∧
          string_forall (λ c, negb (bool_decide (c = "<"%char))) m' = true.
Proof.
  intros H. destruct (marker_re_Some _ _ H) as (d & r & -> & -> & _ & Hd).
  exists ("t" +:+ d +:+ "/>"), r. split; [done|]. split.
  { simpl. by rewrite !string_app_assoc. }
  simpl. clear -Hd. induction d as [|c d IH]; simpl in *; [done|].
  apply andb_prop in Hd as [Hc Hd]. rewrite (IH Hd), andb_true_r.
  apply negb_true_iff, bool_decide_eq_false. by intros ->.
Qed.

(** A stretch of a rewritten text that holds no [<] was copied from the
    original character by character. *)
Lemma replace_pieces_split i ps m r :
  replace_pieces marker i ps = m +:+ r →
  string_forall (λ c, negb (bool_decide (c = "<"%char))) m = true →
  ∃ ps', ps = lits m ++ ps' ∧ r = replace_pieces marker i ps'.
Proof.
  revert ps. induction m as [|x m IH]; intros ps Heq Hm; simpl in *.
  { by exists ps. }
  apply andb_prop in Hm as [Hx Hm].
  destruct ps as [|[c|h] ps]; simpl in Heq.
  - done.
  - injection Heq as -> Heq. destruct (IH _ Heq Hm) as (ps' & -> & ->).
    by exists ps'.
  - injection Heq as <- _. done.
Qed.

(** Every marker put in by [normalize] is found again, so a key holds at
    least as many markers as placeholders were taken out; a marker that
    starts in copied text comes on top of them. *)
Lemma marker_count_ge ps : ∀ i,
  length (hits ps) ≤ marker_count (replace_pieces marker i ps).
Proof.
  remember (length ps) as n eqn:Hn. revert ps Hn.
  induction (lt_wf n) as [n _ IH]. intros ps -> i.
  destruct ps as [|[c|h] ps]; cbn [replace_pieces hits length].
  - lia.
  - unfold marker_count.
    destruct (marker_re (String c (replace_pieces marker i ps))) as [m|] eqn:E.
    + destruct (marker_tail _ _ E) as (m' & r & -> & Hs & Hm').
      injection Hs as -> Hs.
      destruct (replace_pieces_split _ _ _ _ Hs Hm') as (ps' & -> & ->).
      change (String "<" (replace_pieces marker i (lits m' ++ ps')))
        with (replace_pieces marker i (lits (String "<" m') ++ ps')) in *.
      rewrite replace_pieces_lits in E |- *.
      assert (String "<" m' ≠ "") as Hne by done.
      rewrite (scan_hit _ _ _ Hne E). simpl.
      rewrite hits_app, hits_lits. simpl.
      assert (length ps' < length (Lit "<"%char :: lits m' ++ ps')) as Hlt
        by (simpl; rewrite length_app; lia).
      pose proof (IH _ Hlt ps' eq_refl i) as IH'.
      unfold marker_count in IH'. lia.
    + rewrite (scan_lit _ _ _ E). simpl.
      apply (IH (length ps)); [simpl; lia | done].
  - unfold marker_count.
    rewrite (scan_hit _ _ _ (marker_ne i) (marker_re_marker i _)). simpl.
    apply le_n_S, (IH (length ps)); [simpl; lia | done].
Qed.

Lemma marker_in_copy i c ps m :
  marker_re (String c (replace_pieces marker i ps)) = Some m →
  length (hits ps) < marker_count (String c (replace_pieces marker i ps)).
Proof.
  intros E. destruct (marker_tail _ _ E) as (m' & r & -> & Hs & Hm').
  injection Hs as -> Hs.
  destruct (replace_pieces_split _ _ _ _ Hs Hm') as (ps' & -> & ->).
  change (String "<" (replace_pieces marker i (lits m' ++ ps')))
    with (replace_pieces marker i (lits (String "<" m') ++ ps')) in *.
  rewrite replace_pieces_lits in E |- *.
  assert (String "<" m' ≠ "") as Hne by done.
  unfold marker_count. rewrite (scan_hit _ _ _ Hne E). simpl.
  rewrite hits_app, hits_lits. simpl.
  pose proof (marker_count_ge ps' i) as Hge. unfold marker_count in Hge. lia.
Qed.

(** When a key holds as many markers as placeholders were taken out, the
    markers found are the ones put in, and putting the placeholders back
    in their order gives the original text. *)
Lemma restore_pieces ps : ∀ i pre,
  marker_count (replace_pieces marker i ps) = length (hits ps) →
  replace_pieces (stored_at (pre ++ hits ps)) (length pre)
    (scan marker_re (replace_pieces marker i ps)) = pieces_text ps.
Proof.
  induction ps as [|[c|h] ps IH]; intros i pre Hn; [done|..];
    cbn [replace_pieces hits length pieces_text] in *.
  - destruct (marker_re (String c (replace_pieces marker i ps))) as [m|] eqn:E.
    + apply marker_in_copy in E. lia.
    + unfold marker_count in Hn. rewrite (scan_lit _ _ _ E) in Hn |- *.
      simpl. f_equal. by apply IH.
  - unfold marker_count in Hn.
    rewrite (scan_hit _ _ _ (marker_ne i) (marker_re_marker i _)) in Hn |- *.
    cbn [replace_pieces hits length] in *.
    assert (stored_at (pre ++ h :: hits ps) (length pre) = h) as ->.
    { unfold stored_at. by rewrite list_lookup_middle. }
    f_equal.
    replace (pre ++ h :: hits ps) with ((pre ++ [h]) ++ hits ps)
      by by rewrite <-(assoc_L (++)).
    replace (S (length pre)) with (length (pre ++ [h]))
      by (rewrite length_app; simpl; lia).
    apply (IH (S i)). unfold marker_count. lia.
Qed.

Lemma replace_no_hits f i ps :
  hits ps = [] → replace_pieces f i ps = pieces_text ps.
Proof.
  induction ps as [|[c|h] ps IH]; simpl; intros H; [done| |done].
  by rewrite IH.
Qed.

(** ** Normalization against its description *)

Lemma normalizes_scan any text : ∀ i,
  normalizes any i text
    (replace_pieces marker i (scan (braces any) text))
    (hits (scan (braces any) text)).
Proof.
  apply (scan_ind (braces any)
           (λ s ps, ∀ i, normalizes any i s (replace_pieces marker i ps) (hits ps))).
  - apply braces_prefix.
  - constructor.
  - intros c s E IH i. cbn [replace_pieces hits].
    apply normalizes_copy; [by apply braces_None | apply IH].
  - intros m r _ E IH i. cbn [replace_pieces hits].
    apply normalizes_match; [|apply IH].
    by destruct (braces_Some _ _ _ E).
Qed.

(** The description leaves no choice: a text has one key and one list of
    placeholders. *)
Lemma normalizes_functional any i text key1 phs1 :
  normalizes any i text key1 phs1 →
  ∀ key2 phs2, normalizes any i text key2 phs2 → key1 = key2 ∧ phs1 = phs2.
Proof.
  induction 1 as [i|i c text key phs Hno Hn IH|i m text key phs Hm Hn IH];
    intros key2 phs2 H2.
  - inversion H2 as [| |i' m' t' k' p' Hm' _ Ht']; subst; [done|].
    destruct Hm' as (body & -> & _). discriminate.
  - inversion H2 as [|i' c' t' k' p' _ Hn' |i' m' t' k' p' Hm' _ Ht']; subst.
    + by destruct (IH _ _ Hn') as [-> ->].
    + exfalso. by apply (Hno m' t' Hm').
  - assert (m ≠ "") as Hne by (destruct Hm as (body & -> & _); done).
    inversion H2 as [|i' c' t' k' p' Hno' _ Ht'|i' m' t' k' p' Hm' Hn' Ht'];
      subst.
    + by destruct m.
    + exfalso. by apply (Hno' m text Hm).
    + match goal with Heq : _ +:+ _ = _ +:+ _ |- _ => rename Heq into Ht' end.
      pose proof (braces_complete any m text Hm) as E1.
      pose proof (braces_complete any m' t' Hm') as E2.
      rewrite Ht' in E2. rewrite E1 in E2. injection E2 as <-.
      apply (inj (String.append m)) in Ht' as ->.
      by destruct (IH _ _ Hn') as [-> ->].
Qed.

Lemma normalizes_plain any i text key placeholders :
  normalizes any i text key placeholders →
  (∀ pre m rest, is_placeholder any m → text ≠ pre +:+ m +:+ rest) →
  key = text ∧ placeholders = [].
Proof.
  induction 1 as [i|i c text key phs Hno Hn IH|i m text key phs Hm Hn IH];
    intros Hfree.
  - done.
  - destruct IH as [-> ->]; [|done].
    intros pre m rest Hm ->. by apply (Hfree (String c pre) m rest).
  - exfalso. by apply (Hfree "" m text).
Qed.

(** ** The placeholder codec *)

(** C8, as amended.  [normalize] reads the text from left to right, copies
    every character at which no placeholder starts, replaces the i-th
    placeholder, counted from 0 within the text, by the marker [<t{i}/>]
    and returns the placeholders in their order, where a placeholder is
    [{{], then characters other than line terminators, then the first [}}]
    that follows; a text in which no placeholder occurs is returned as it
    is, with no placeholder. *)
Theorem normalize_spec (text : string) :
  normalizes dot 0 text (normalize text).1 (default [] (normalize text).2) ∧
  ((∀ pre m rest, is_placeholder dot m → text ≠ pre +:+ m +:+ rest) →
   normalize text = (text, None)).
Proof.
  pose proof (normalizes_scan dot text 0) as Hn.
  assert (normalizes dot 0 text (normalize text).1
            (default [] (normalize text).2)) as Hspec.
  { unfold normalize, js_match, js_replace, placeholder_re.
    destruct (hits (scan (braces dot) text)) as [|m ms] eqn:Hh; simpl.
    - rewrite replace_no_hits, pieces_text_scan in Hn
        by auto using braces_prefix.
      done.
    - done. }
  split; [done|]. intros Hfree.
  destruct (normalizes_plain _ _ _ _ _ Hspec Hfree) as [_ Hnil].
  unfold normalize, js_match in *.
  by destruct (hits (scan placeholder_re text)).
Qed.

Lemma normalize_spec_witness :
  normalizes dot 0 "Hello" (normalize "Hello").1
    (default [] (normalize "Hello").2) ∧
  normalize "Hello" = ("Hello", None).
Proof.
  destruct (normalize_spec "Hello") as [H1 H2]. split; [exact H1|].
  apply H2. intros pre m rest (body & -> & _).
  destruct pre as [|? [|? [|? [|? [|? pre]]]]]; simpl;
    try discriminate.
  destruct pre; discriminate.
Defined.

(** Read with "any characters" taken literally, the description asks for
    a placeholder that runs over a line break to be replaced by a marker;
    the pattern of the script does not match it and the text is the key. *)
Lemma normalize_line_break :
  let text := "{{a" +:+ String "010"%char "b}}" in
  normalizes (λ _, true) 0 text "<t0/>" [text] ∧
  normalize text = (text, None) ∧
  ¬ normalizes (λ _, true) 0 text (normalize text).1
      (default [] (normalize text).2).
Proof.
  assert (is_placeholder (λ _, true) ("{{a" +:+ String "010"%char "b}}"))
    as Hm.
  { exists ("a" +:+ String "010"%char "b"). split; [done|]. split; [done|].
    intros [|? [|? [|? [|? [|? b]]]]] r; simpl; discriminate. }
  intros text. split; [|split].
  - apply (normalizes_match (λ _, true) 0 text "" "" [] Hm). constructor.
  - by vm_compute.
  - change (normalize text) with (text, @None (list string)). simpl.
    inversion 1 as [|i c t k phs Hno _ Ht|]; subst.
    by apply (Hno text "" Hm).
Qed.

(** Putting back what [normalize] took out. *)
Lemma restore_normalize (text key : string) (stored : list string) :
  normalize text = (key, Some stored) →
  marker_count key = length stored →
  restore key stored = text.
Proof.
  unfold normalize, js_match, js_replace.
  destruct (hits (scan placeholder_re text)) as [|m ms] eqn:Hh; [done|].
  intros [= <- <-] Hn.
  unfold restore, js_replace. rewrite <-Hh in *.
  etrans; [exact (restore_pieces _ 0 [] Hn)|].
  apply pieces_text_scan, braces_prefix.
Qed.

(** C3, as amended.  Whenever the normalized key of a text with
    placeholders holds exactly as many markers as placeholders were
    recorded, that is, no marker is written out in the text outside its
    placeholders, denormalizing the key with the recorded placeholders
    gives the text back; a text without placeholders is its own key and
    comes back as it is. *)
Theorem denormalize_normalize (text : string) :
  (∀ stored, (normalize text).2 = Some stored →
             marker_count (normalize text).1 = length stored) →
  denormalize (normalize text).1 (normalize text).2 = text.
Proof.
  intros Hn. destruct (normalize text) as [key [stored|]] eqn:E; simpl in *.
  - by apply restore_normalize, Hn.
  - unfold normalize in E.
    destruct (js_match placeholder_re text); congruence.
Qed.

Lemma denormalize_normalize_witness :
  let text := "Hello {{name}}, {{count}} new" in
  (∀ stored, (normalize text).2 = Some stored →
             marker_count (normalize text).1 = length stored) ∧
  denormalize (normalize text).1 (normalize text).2 = text.
Proof.
  intros text.
  assert (∀ stored, (normalize text).2 = Some stored →
            marker_count (normalize text).1 = length stored) as H.
  { intros stored. vm_compute. by intros [= <-]. }
  split; [exact H | exact (denormalize_normalize text H)].
Defined.

(** A text that writes a marker out next to a placeholder does not come
    back: the written marker takes the placeholder and the marker put in
    by [normalize] finds none left. *)
Lemma denormalize_normalize_written_marker :
  let text := "<t7/> {{name}}" in
  normalize text = ("<t7/> <t0/>", Some ["{{name}}"]) ∧
  denormalize (normalize text).1 (normalize text).2 = "{{name}} undefined" ∧
  denormalize (normalize text).1 (normalize text).2 ≠ text.
Proof. by vm_compute. Qed.

(** ** The entry cache *)

Lemma bind_run {A B} (m : M A) (k : A → M B) (st : state) :
  (m ≫= k) st =
    match m st with
    | Returned (a, st') => k a st'
    | Thrown e => Thrown e
    end.
Proof. reflexivity. Qed.

Lemma obj_get_set_eq {V} (o : object V) k v : obj_get (obj_set o k v) k = Some v.
Proof.
  induction o as [|[k' v'] o IH]; simpl.
  - by rewrite bool_decide_true.
  - case_bool_decide; simpl.
    + by rewrite bool_decide_true.
    + by rewrite bool_decide_false.
Qed.

Lemma obj_get_set_ne {V} (o : object V) k k' v :
  k ≠ k' → obj_get (obj_set o k v) k' = obj_get o k'.
Proof.
  intros Hne. induction o as [|[k0 v0] o IH]; simpl.
  - by rewrite bool_decide_false.
  - case_bool_decide; simpl; subst.
    + by rewrite !bool_decide_false.
    + by rewrite IH.
Qed.

Lemma obj_set_same {V} (o : object V) k v :
  obj_get o k = Some v → obj_set o k v = o.
Proof.
  induction o as [|[k' v'] o IH]; simpl; [done|].
  case_bool_decide; [by intros [= ->]; subst | by intros ->%IH].
Qed.

Lemma Object_keys_set {V} (o : object V) k v :
  Object_keys (obj_set o k v) =
    if bool_decide (k ∈ Object_keys o) then Object_keys o
    else Object_keys o ++ [k].
Proof.
  unfold Object_keys. induction o as [|[k' v'] o IH]; [done|].
  cbn [obj_set]. rewrite !fmap_cons. cbn [fst].
  destruct (decide (k' = k)) as [->|Hne].
  - rewrite bool_decide_true by done.
    by rewrite fmap_cons, bool_decide_true by left.
  - rewrite bool_decide_false by done. rewrite fmap_cons, IH. cbn [fst].
    destruct (decide (k ∈ o.*1)) as [Hin|Hin].
    + rewrite !bool_decide_true; [done|by right|done].
    + rewrite !bool_decide_false; [done| |done].
      rewrite elem_of_cons. by intros [?|?].
Qed.

(** The keys of the cache stay distinct. *)
Lemma Object_keys_set_NoDup {V} (o : object V) k v :
  NoDup (Object_keys o) → NoDup (Object_keys (obj_set o k v)).
Proof.
  intros Hnd. rewrite Object_keys_set. case_bool_decide; [done|].
  apply NoDup_app. split; [done|]. split; [|apply NoDup_singleton].
  intros x Hx ->%list_elem_of_singleton. done.
Qed.

(** X4.  What [addEntry] does when it meets a text again before the
    batches are resolved, for a key that is not a name of
    [Object.prototype]: the entry holds the empty string, the guard lets
    the insertion run again, the cache is not changed and the length of
    the key is counted once more. *)
Lemma addEntry_string_again text st :
  text ≠ "" →
  (normalize text).1 ∉ Object_prototype →
  falsy (obj_get (cache st) (normalize text).1) = true →
  ∃ st1 st2,
    addEntry_string text st = Returned (tt, st1) ∧
    addEntry_string text st1 = Returned (tt, st2) ∧
    obj_get (cache st1) (normalize text).1 = Some "" ∧
    cache st2 = cache st1 ∧
    totalChars st2 =
      totalChars st + 2 * String.length (normalize text).1.
Proof.
  intros Hne _ Hf. unfold addEntry_string. rewrite bool_decide_false by done.
  rewrite !bind_run. simpl.
  assert ((normalize text).2 = None → (normalize text).1 = text) as Hkey.
  { unfold normalize. by destruct (js_match placeholder_re text). }
  destruct (normalize text) as [key [phs|]] eqn:Hn; simpl in *.
  - rewrite Hf. simpl. eexists _, _. split; [reflexivity|].
    rewrite bind_run. simpl. rewrite obj_get_set_eq. simpl.
    split; [reflexivity|]. split; [done|]. simpl. split; [|lia].
    apply obj_set_same, obj_get_set_eq.
  - rewrite (Hkey eq_refl) in *. rewrite Hf. simpl.
    eexists _, _. split; [reflexivity|].
    rewrite bind_run. simpl. rewrite obj_get_set_eq. simpl.
    split; [reflexivity|]. split; [done|]. simpl. split; [|lia].
    apply obj_set_same, obj_get_set_eq.
Qed.

Lemma addEntry_string_again_witness :
  ∃ st1 st2,
    addEntry_string "dup" initial_state = Returned (tt, st1) ∧
    addEntry_string "dup" st1 = Returned (tt, st2) ∧
    obj_get (cache st1) (normalize "dup").1 = Some "" ∧
    cache st2 = cache st1 ∧
    totalChars st2 =
      totalChars initial_state + 2 * String.length (normalize "dup").1.
Proof.
  apply addEntry_string_again; [done| |done].
  apply (bool_decide_unpack _). by vm_compute.
Defined.

Lemma resolve_from_get batch response : ∀ i c j key,
  NoDup batch →
  i + length response ≤ length batch →
  batch !! j = Some key →
  obj_get (resolve_from batch i response c) key =
    if bool_decide (i ≤ j) then
      match response !! (j - i) with
      | Some res => Some res
      | None => obj_get c key
      end
    else obj_get c key.
Proof.
  induction response as [|res response IH]; intros i c j key Hnd Hlen Hj.
  { simpl. by case_bool_decide. }
  simpl in *. rewrite (IH (S i) _ j key Hnd) by (done || lia).
  destruct (batch !! i) as [ki|] eqn:Hi.
  2:{ apply lookup_ge_None in Hi. lia. }
  unfold batch_at. rewrite Hi. simpl.
  destruct (decide (i = j)) as [->|Hij].
  - assert (ki = key) as -> by congruence.
    rewrite (bool_decide_false (S j ≤ j)), (bool_decide_true (j ≤ j)) by lia.
    by rewrite Nat.sub_diag, obj_get_set_eq.
  - assert (ki ≠ key) as Hk.
    { intros ->. apply Hij. by eapply NoDup_lookup. }
    rewrite obj_get_set_ne by done.
    repeat case_bool_decide; try lia; [|done].
    by replace (j - i) with (S (j - S i)) by lia.
Qed.

(** C6, as amended.  Whatever the number of items in the response, the
    loop body raises no error.  For a batch of distinct keys and a
    response that is not longer than the batch, the key at position i is
    resolved to response item i when there is one, and keeps the value it
    had otherwise. *)
Theorem submit_positional (translateText : list string → outcome (list string))
  (batch response : list string) (st : state) :
  translateText batch = Returned response →
  ∃ st', submit translateText batch st = Returned (tt, st') ∧
    (NoDup batch → length response ≤ length batch →
     ∀ i key, batch !! i = Some key →
       obj_get (cache st') key =
         match response !! i with
         | Some res => Some res
         | None => obj_get (cache st) key
         end).
Proof.
  intros Hr. unfold submit. rewrite Hr. eexists. split; [done|].
  intros Hnd Hlen i key Hi. simpl. unfold resolve.
  rewrite (resolve_from_get _ _ 0 _ i key) by done.
  by rewrite bool_decide_true, Nat.sub_0_r by lia.
Qed.

Lemma submit_positional_witness :
  ∃ st', submit echo ["a"; "b"] initial_state = Returned (tt, st') ∧
         obj_get (cache st') "b" = Some "b".
Proof.
  destruct (submit_positional echo ["a"; "b"] ["a"; "b"] initial_state eq_refl)
    as (st' & Hsubmit & Hpos).
  exists st'. split; [exact Hsubmit|].
  apply (Hpos ltac:(by apply (bool_decide_unpack _)) ltac:(simpl; lia)
           1 "b" eq_refl).
Defined.

(** A response one item short is taken without complaint: the second key
    is left with the empty string it was entered with. *)
Lemma submit_short_response :
  let translateText := λ _ : list string, Returned ["X"] in
  let st := {| cache := [("a", ""); ("b", "")]; totalChars := 2;
               placeholderMap := ∅ |} in
  translateText ["a"; "b"] = Returned ["X"] ∧
  length ["X"] ≠ length ["a"; "b"] ∧
  submit translateText ["a"; "b"] st =
    Returned (tt, {| cache := [("a", "X"); ("b", "")]; totalChars := 2;
                     placeholderMap := ∅ |}).
Proof. by vm_compute. Qed.

(** C5, as amended.  [translate] compares no counts: for a text with
    placeholders whose key is in the cache and in the placeholder map, it
    returns the translated text with the i-th marker replaced by the i-th
    stored placeholder, or by [undefined] when fewer are stored, and it
    does so whether or not the number of markers is the number of stored
    placeholders; a translation that holds no marker is returned as it
    is. *)
Theorem translate_restores_unchecked (text key translatedText : string)
  (originalPlaceholders storedPlaceholders : list string) (st : state) :
  text ≠ "" →
  normalize text = (key, Some originalPlaceholders) →
  obj_get (cache st) key = Some translatedText →
  placeholderMap st !! key = Some storedPlaceholders →
  let restoredText :=
    js_replace marker_re translatedText
      (λ i, default "undefined" (storedPlaceholders !! i)) in
  translate_string text st = Returned (restoredText, st) ∧
  (marker_count translatedText = 0 → restoredText = translatedText).
Proof.
  intros Hne Hnorm Hc Hp restoredText. split.
  - unfold translate_string. rewrite bool_decide_false by done.
    rewrite bind_run. simpl. rewrite Hnorm, Hc, Hp. reflexivity.
  - unfold marker_count, restoredText, js_replace. intros Hn.
    rewrite replace_no_hits by by apply nil_length_inv.
    apply pieces_text_scan, marker_re_prefix.
Qed.

Lemma translate_restores_unchecked_witness :
  translate_string "Hello {{name}}" lost_marker_state =
    Returned ("Bonjour", lost_marker_state).
Proof.
  destruct (translate_restores_unchecked "Hello {{name}}" "Hello <t0/>"
              "Bonjour" ["{{name}}"] ["{{name}}"] lost_marker_state)
    as [Hrun Hsame]; [done | by vm_compute | done | by vm_compute |].
  rewrite Hrun, Hsame; [reflexivity | by vm_compute].
Defined.

(** A translation that lost its marker is returned as it is, without the
    placeholder and without an error. *)
Lemma translate_lost_marker :
  obj_get (cache lost_marker_state) "Hello <t0/>" = Some "Bonjour" ∧
  placeholderMap lost_marker_state !! "Hello <t0/>" = Some ["{{name}}"] ∧
  marker_count "Bonjour" ≠ length ["{{name}}"] ∧
  translate_string "Hello {{name}}" lost_marker_state =
    Returned ("Bonjour", lost_marker_state).
Proof. by vm_compute. Qed.

(** ** The batcher *)

Lemma push_key_first key : push_key [] key = [[key]].
Proof. reflexivity. Qed.

(** A key goes to the last batch; the batch that reaches 49 keys is
    followed at once by a new, empty one. *)
Lemma push_key_last full last key :
  push_key (full ++ [last]) key =
    if bool_decide (49 ≤ length (last ++ [key]))
    then full ++ [last ++ [key]; []]
    else full ++ [last ++ [key]].
Proof.
  unfold push_key. rewrite length_app. simpl.
  replace ((length full + 1 - 1) `max` 0) with (length full) by lia.
  rewrite list_lookup_middle by done.
  rewrite (alter_app_r_alt _ full [last] (length full)) by lia.
  rewrite Nat.sub_diag. simpl.
  rewrite list_lookup_middle by done.
  case_bool_decide; [|done]. by rewrite <-(assoc_L (++)).
Qed.

(** What the loop has built after the last key: full batches, then the
    batch being filled. *)
Lemma make_batches_split keys :
  keys ≠ [] →
  ∃ full last, make_batches keys = full ++ [last] ∧
    Forall (λ b, length b = 49) full ∧ length last < 49 ∧
    concat (full ++ [last]) = keys.
Proof.
  induction keys as [|key keys IH] using rev_ind; [done|]. intros _.
  unfold make_batches in *. rewrite foldl_snoc.
  destruct keys as [|k0 keys'] using rev_ind.
  { exists [], [key]. simpl. repeat split; auto. lia. }
  clear IHkeys'.
  destruct IH as (full & last & -> & Hfull & Hlast & Hcat).
  { by destruct keys'. }
  rewrite push_key_last. rewrite length_app. simpl.
  rewrite concat_app in Hcat. simpl in Hcat. rewrite app_nil_r in Hcat.
  case_bool_decide.
  - exists (full ++ [last ++ [key]]), []. split.
    { by rewrite <-(assoc_L (++)). }
    split; [|split; [simpl; lia|]].
    + apply Forall_app. split; [done|]. constructor; [|done].
      rewrite length_app. simpl. lia.
    + rewrite !concat_app. simpl. rewrite !app_nil_r.
      by rewrite (assoc_L (++)), Hcat.
  - exists full, (last ++ [key]). split; [done|].
    split; [done|]. split; [rewrite length_app; simpl; lia|].
    rewrite concat_app. simpl. rewrite app_nil_r.
    by rewrite (assoc_L (++)), Hcat.
Qed.

(** X1.  What the loop builds from a non-empty list of keys: batches of
    49 keys, then a last batch of fewer than 49 keys, which is empty when
    the number of keys is a multiple of 49; put end to end the batches are
    the list of keys, and there are floor(K/49) + 1 of them. *)
Theorem make_batches_shape keys :
  keys ≠ [] →
  (∃ full last, make_batches keys = full ++ [last] ∧
     Forall (λ b, length b = 49) full ∧ length last < 49 ∧
     concat (full ++ [last]) = keys) ∧
  length (make_batches keys) = length keys / 49 + 1.
Proof.
  intros Hne. split; [by apply make_batches_split|].
  destruct (make_batches_split keys Hne)
    as (full & last & -> & Hfull & Hlast & Hcat).
  rewrite length_app. cbn [length]. f_equal.
  apply (f_equal length) in Hcat. rewrite concat_app, length_app in Hcat.
  simpl in Hcat. rewrite app_nil_r in Hcat.
  assert (length (concat full) = 49 * length full) as Hlen.
  { clear -Hfull. induction Hfull as [|b full Hb _ IH]; simpl; [done|].
    rewrite length_app. lia. }
  apply (Nat.div_unique _ 49 _ (length last)); lia.
Qed.

Lemma make_batches_shape_witness :
  (∃ full last, make_batches keys49 = full ++ [last] ∧
     Forall (λ b, length b = 49) full ∧ length last < 49 ∧
     concat (full ++ [last]) = keys49) ∧
  length (make_batches keys49) = length keys49 / 49 + 1.
Proof. apply make_batches_shape. by vm_compute. Defined.

(** C1.  With exactly 49 distinct keys the loop closes the full batch
    and opens an empty one behind it: two batches, the second empty, where
    ceil(49/49) = 1 non-empty batch is asked for. *)
Theorem make_batches_49 :
  NoDup keys49 ∧ length keys49 = 49 ∧ make_batches keys49 = [keys49; []].
Proof.
  split; [|split]; [|done|by vm_compute].
  apply (bool_decide_unpack _). by vm_compute.
Qed.

(** ** The walker and the run *)

(** C2.  With the translate-keys option on, the collection pass hands an
    object key to [translate], not to the action of the walk: the key is
    looked up in the still empty cache and the walk throws. *)
Theorem collect_translates_keys :
  traverseJSON true addEntry (JObject [("a", JString "b")]) initial_state =
    Thrown (Error "Entry not found in cache, should never happen: a").
Proof. by vm_compute. Qed.

(** C9.  With the translate-keys option on, a walk with the identity as
    its action does not return the object it was given: the key goes to
    [translate] and the walk throws. *)
Theorem identity_walk_translates_keys :
  traverseJSON true mret (JObject [("a", JNumber 1)]) initial_state =
    Thrown (Error "Entry not found in cache, should never happen: a").
Proof. by vm_compute. Qed.

(** C4.  A string met twice is entered once in the cache, sent once and
    translated alike at both places, but its length is added to the
    character count at each occurrence: 6 for two occurrences of [dup]. *)
Theorem duplicate_counted_twice :
  let inputObj := JArray [JString "dup"; JString "dup"] in
  traverseJSON false addEntry inputObj initial_state =
    Returned ((inputObj, inputObj),
              {| cache := [("dup", "")]; totalChars := 6;
                 placeholderMap := ∅ |}) ∧
  make_batches (Object_keys [("dup", "")]) = [["dup"]] ∧
  value_of (main false (λ b, Returned ((λ _, "X") <$> b)) inputObj
              initial_state)
    = Returned (JArray [JString "X"; JString "X"]).
Proof. by vm_compute. Qed.

(** C10.  Two texts with the same key and different placeholders: the
    placeholder map ends with the list of the text met last, and both
    places come back with the placeholder of the last one. *)
Theorem shared_key_keeps_last :
  let inputObj := JArray [JString "Hi {{a}}"; JString "Hi {{b}}"] in
  traverseJSON false addEntry inputObj initial_state =
    Returned ((inputObj, inputObj),
              {| cache := [("Hi <t0/>", "")]; totalChars := 16;
                 placeholderMap := {["Hi <t0/>" := ["{{b}}"]]} |}) ∧
  value_of (main false echo inputObj initial_state)
    = Returned (JArray [JString "Hi {{b}}"; JString "Hi {{b}}"]).
Proof. by vm_compute. Qed.

(** Induction on a document, with the hypothesis for every element of an
    array and every value of an object. *)
Lemma json_ind (P : json → Prop) :
  P JNull → (∀ b, P (JBool b)) → (∀ n, P (JNumber n)) → (∀ s, P (JString s)) →
  (∀ items, Forall P items → P (JArray items)) →
  (∀ entries, Forall (λ e, P e.2) entries → P (JObject entries)) →
  ∀ v, P v.
Proof.
  intros Hnull Hbool Hnum Hstr Harr Hobj.
  fix IH 1. intros [|b|n|s|items|entries].
  - exact Hnull.
  - apply Hbool.
  - apply Hnum.
  - apply Hstr.
  - apply Harr. revert items. fix IHitems 1.
    intros [|x items]; constructor; [apply IH | apply IHitems].
  - apply Hobj. revert entries. fix IHentries 1.
    intros [|[k x] entries]; constructor; [apply IH | apply IHentries].
Qed.

(** Numbers, booleans and null are handed back as they are, whatever the
    action and the options, and the state is not touched. *)
Lemma traverseJSON_scalar tp action v st :
  match v with JNull | JBool _ | JNumber _ => True | _ => False end →
  traverseJSON tp action v st = Returned ((v, v), st).
Proof. by destruct v. Qed.

(** X3.  The action is applied to strings only: two actions that agree
    on strings give the same walk. *)
Lemma traverseJSON_strings_only tp (a1 a2 : json → M json) :
  (∀ s st, a1 (JString s) st = a2 (JString s) st) →
  ∀ v st, traverseJSON tp a1 v st = traverseJSON tp a2 v st.
Proof.
  intros Hstr. induction v as [| | |s|items IH|entries IH] using json_ind;
    intros st; simpl; try done.
  - by rewrite !bind_run, Hstr.
  - rewrite !bind_run.
    assert (slots (traverseJSON tp a1) items st
            = slots (traverseJSON tp a2) items st) as ->; [|done].
    revert st. induction IH as [|x items Hx _ IHitems]; intros st; [done|].
    simpl. rewrite !bind_run, Hx.
    destruct (traverseJSON tp a2 x st) as [[r st']|]; [|done].
    by rewrite !bind_run, IHitems.
  - rewrite !bind_run.
    assert (∀ acc, props tp (traverseJSON tp a1) entries acc st
                   = props tp (traverseJSON tp a2) entries acc st) as ->;
      [|done].
    revert st. induction IH as [|[k x] entries Hx _ IHentries];
      intros st acc; [done|].
    simpl. rewrite !bind_run.
    destruct ((if tp then translate_string k else mret k) st)
      as [[k' st']|]; [|done].
    rewrite !bind_run. simpl in Hx. rewrite Hx.
    destruct (traverseJSON tp a2 x st') as [[r st'']|]; [|done].
    by rewrite !bind_run, IHentries.
Qed.

Lemma traverseJSON_strings_only_witness :
  let strict := λ v, match v with
                     | JString _ => addEntry v
                     | _ => throw (TypeError "not a string")
                     end in
  let inputObj := JObject [("a", JArray [JString "x"; JNumber 1; JNull])] in
  traverseJSON false addEntry inputObj initial_state
  = traverseJSON false strict inputObj initial_state.
Proof.
  intros strict inputObj. by apply traverseJSON_strings_only.
Defined.

Lemma obj_set_fresh {V} (o : object V) k v :
  k ∉ o.*1 → obj_set o k v = o ++ [(k, v)].
Proof.
  induction o as [|[k' v'] o IH]; simpl; [done|].
  rewrite not_elem_of_cons. intros [Hne Hk].
  rewrite bool_decide_false by done. by rewrite IH.
Qed.

(** X2.  With the translate-keys option off, a walk whose action hands
    every string back returns a document equal to the one it was given, leaves
    the argument equal to itself and does not touch the state. *)
Lemma traverseJSON_identity v :
  json_wf v = true →
  ∀ st, traverseJSON false mret v st = Returned ((v, v), st).
Proof.
  induction v as [| | |s|items IH|entries IH] using json_ind;
    intros Hwf st; simpl; try done.
  - rewrite bind_run.
    assert (slots (traverseJSON false mret) items st
            = Returned (items, st)) as ->; [|done].
    simpl in Hwf. revert st.
    induction IH as [|x items Hx _ IHitems]; intros st; [done|].
    simpl in Hwf. apply andb_prop in Hwf as [Hwx Hwf].
    simpl. rewrite bind_run, (Hx Hwx), bind_run. by rewrite (IHitems Hwf).
  - rewrite bind_run.
    simpl in Hwf. apply andb_prop in Hwf as [Hnd Hwf].
    apply bool_decide_eq_true in Hnd as [Hnd _].
    assert (∀ acc, NoDup (acc.*1 ++ entries.*1) →
              props false (traverseJSON false mret) entries acc st
              = Returned ((acc ++ entries, entries), st)) as Hprops.
    { clear Hnd. revert st.
      induction IH as [|[k x] entries Hx _ IHentries]; intros st acc Hacc.
      { simpl. by rewrite app_nil_r. }
      simpl in Hwf. apply andb_prop in Hwf as [Hwx Hwf].
      simpl. rewrite bind_run. simpl.
      rewrite bind_run. simpl in Hx. rewrite (Hx Hwx). simpl.
      rewrite bind_run.
      assert (k ∉ acc.*1) as Hk.
      { apply NoDup_app in Hacc as (_ & Hdisj & _).
        intros Hin. apply (Hdisj _ Hin). simpl. left. }
      rewrite (obj_set_fresh _ _ _ Hk).
      rewrite (IHentries Hwf).
      - simpl. by rewrite <-(assoc_L (++)).
      - rewrite fmap_app. simpl. by rewrite <-(assoc_L (++)). }
    by rewrite (Hprops [] Hnd).
Qed.

Lemma traverseJSON_identity_witness :
  let inputObj :=
    JObject [("a", JArray [JString "x"; JNumber 1; JNull]);
             ("b", JObject [("c", JBool true)])] in
  traverseJSON false mret inputObj initial_state
  = Returned ((inputObj, inputObj), initial_state).
Proof. intros inputObj. by apply traverseJSON_identity. Defined.

(** When the options let the run go through, the whole of [main] hands
    the writer what [main] without the options does. *)
Lemma main_options_goes_through tp translateText displayUsageLimit
  askForConfirmation getUsage prompt inputObj st :
  goes_through displayUsageLimit askForConfirmation getUsage prompt →
  main_options tp translateText displayUsageLimit askForConfirmation
    getUsage prompt inputObj st
  = (Some <$> main tp translateText inputObj) st.
Proof.
  intros [Husage Hprompt].
  assert (∀ n st, logUsageLimit displayUsageLimit (getUsage n) st
                  = Returned (tt, st)) as Hlog.
  { intros n st0. unfold logUsageLimit.
    destruct displayUsageLimit; [|done]. by rewrite (Husage eq_refl). }
  unfold main_options, main. unfold fmap at 1. unfold M_fmap.
  rewrite bind_run, Hlog. rewrite !bind_run.
  destruct (traverseJSON tp addEntry inputObj st) as [[r st1]|]; [|done].
  rewrite !bind_run. simpl.
  assert (∀ st0, (if askForConfirmation
                  then λ st0 : state,
                         match prompt with
                         | Returned answer => Returned (answer, st0)
                         | Thrown e => Thrown e
                         end
                  else (mret true : M bool)) st0 = Returned (true, st0))
    as Hanswer.
  { intros st0. destruct askForConfirmation; [|done].
    by rewrite (Hprompt eq_refl). }
  rewrite bind_run, Hanswer. rewrite !bind_run.
  destruct (submit_all translateText (make_batches (Object_keys (cache st1)))
              st1) as [[[] st2]|]; [|done].
  rewrite !bind_run.
  destruct (traverseJSON tp translate r.2 st2) as [[r' st3]|]; [|done].
  by rewrite bind_run, Hlog.
Qed.

(** A document that is one string, sent to a provider that returns every
    text unchanged by [main] without the options. *)
Lemma echo_leaf_run (text : string) :
  (∀ stored, (normalize text).2 = Some stored →
             marker_count (normalize text).1 = length stored) →
  main false echo (JString text) initial_state
  = Returned (JString text,
              if bool_decide (text = "") then initial_state
              else {| cache := [((normalize text).1, (normalize text).1)];
                      totalChars := String.length (normalize text).1;
                      placeholderMap :=
                        match (normalize text).2 with
                        | Some stored => <[(normalize text).1 := stored]> ∅
                        | None => ∅
                        end |}).
Proof.
  intros Hn. destruct (decide (text = "")) as [->|Hne]; [done|].
  rewrite bool_decide_false by done.
  assert (∃ key phs, normalize text = (key, phs) ∧
            (phs = None → key = text)) as (key & phs & E & Hkey).
  { unfold normalize.
    destruct (js_match placeholder_re text); eexists _, _; by split. }
  rewrite E in Hn |- *. simpl in Hn |- *.
  set (pmap := match phs with
               | Some stored => <[key := stored]> ∅
               | None => ∅
               end : gmap string (list string)).
  set (st1 := {| cache := [(key, "")]; totalChars := String.length key;
                 placeholderMap := pmap |}).
  set (st2 := {| cache := [(key, key)]; totalChars := String.length key;
                 placeholderMap := pmap |}).
  assert (addEntry_string text initial_state = Returned (tt, st1)) as Hadd.
  { unfold addEntry_string. rewrite bool_decide_false by done.
    rewrite bind_run. simpl. rewrite E.
    destruct phs as [stored|]; [reflexivity|].
    unfold st1, pmap. by rewrite (Hkey eq_refl). }
  assert (submit_all echo (make_batches (Object_keys (cache st1))) st1
          = Returned (tt, st2)) as Hsubmit.
  { simpl. rewrite bind_run. unfold submit, echo, resolve. simpl.
    by rewrite bool_decide_true by done. }
  assert (translate_string text st2 = Returned (text, st2)) as Htr.
  { unfold translate_string. rewrite bool_decide_false by done.
    rewrite bind_run. simpl. rewrite E. simpl.
    rewrite bool_decide_true by done.
    destruct phs as [stored|].
    - unfold pmap. rewrite lookup_insert_eq.
      by rewrite (restore_normalize text key stored E (Hn _ eq_refl)).
    - by rewrite (Hkey eq_refl). }
  unfold main. rewrite bind_run. simpl. rewrite !bind_run, Hadd. simpl.
  rewrite bind_run. simpl. rewrite bind_run.
  simpl in Hsubmit. rewrite Hsubmit.
  rewrite !bind_run. unfold fmap, M_fmap. by rewrite Htr.
Qed.

(** X5.  A document that is one string whose key is not a name of
    [Object.prototype], sent to a provider that returns every text
    unchanged, comes back unchanged when its key holds as many markers as
    placeholders were recorded and the options let the run go through. *)
Theorem main_echo_leaf (displayUsageLimit askForConfirmation : bool)
  (getUsage : nat → outcome unit) (prompt : outcome bool) (text : string) :
  goes_through displayUsageLimit askForConfirmation getUsage prompt →
  (normalize text).1 ∉ Object_prototype →
  (∀ stored, (normalize text).2 = Some stored →
             marker_count (normalize text).1 = length stored) →
  value_of (main_options false echo displayUsageLimit askForConfirmation
              getUsage prompt (JString text) initial_state)
  = Returned (Some (JString text)).
Proof.
  intros Hgo _ Hn.
  rewrite (main_options_goes_through _ _ _ _ _ _ _ _ Hgo).
  unfold fmap, M_fmap. by rewrite (echo_leaf_run text Hn).
Qed.

Lemma main_echo_leaf_witness :
  value_of (main_options false echo true true (λ _, Returned tt)
              (Returned true) (JString "Hello {{name}}") initial_state)
  = Returned (Some (JString "Hello {{name}}")).
Proof.
  apply main_echo_leaf.
  - by split.
  - apply (bool_decide_unpack _). by vm_compute.
  - intros stored. vm_compute. by intros [= <-].
Defined.

(** ** The two passes over a document *)

Lemma addEntry_string_record text st :
  addEntry_string text st = Returned (tt, record text st).
Proof.
  unfold addEntry_string, record. case_bool_decide; [done|].
  rewrite bind_run. simpl.
  assert ((normalize text).2 = None → (normalize text).1 = text) as Hkey.
  { unfold normalize. by destruct (js_match placeholder_re text). }
  destruct (normalize text) as [key [phs|]]; simpl in *.
  - by destruct (falsy (obj_get (cache st) key)).
  - rewrite (Hkey eq_refl). by destruct (falsy (obj_get (cache st) text)).
Qed.

(** A walk with the translate-keys option off whose action hands every
    string back: the document is returned as it is, and the state has
    gone through the action once per string leaf, in the order of the
    leaves. *)
Lemma traverseJSON_leaves (action : json → M json) (h : string → state → state) v :
  (∀ s st, action (JString s) st = Returned (JString s, h s st)) →
  json_wf v = true →
  ∀ st, traverseJSON false action v st
        = Returned ((v, v), foldl (λ st s, h s st) st (strings_of v)).
Proof.
  intros Hact.
  induction v as [| | |s|items IH|entries IH] using json_ind;
    intros Hwf st; simpl; try done.
  - by rewrite bind_run, Hact.
  - rewrite bind_run.
    assert (slots (traverseJSON false action) items st
            = Returned (items, foldl (λ st s, h s st) st
                                 (concat (strings_of <$> items)))) as ->;
      [|done].
    simpl in Hwf. revert st.
    induction IH as [|x items Hx _ IHitems]; intros st; [done|].
    simpl in Hwf. apply andb_prop in Hwf as [Hwx Hwf].
    simpl. rewrite bind_run, (Hx Hwx), bind_run, (IHitems Hwf).
    by rewrite foldl_app.
  - rewrite bind_run.
    simpl in Hwf. apply andb_prop in Hwf as [Hnd Hwf].
    apply bool_decide_eq_true in Hnd as [Hnd _].
    assert (∀ acc, NoDup (acc.*1 ++ entries.*1) →
              props false (traverseJSON false action) entries acc st
              = Returned ((acc ++ entries, entries),
                          foldl (λ st s, h s st) st
                            (concat ((λ e, strings_of e.2) <$> entries))))
      as Hprops.
    { clear Hnd. revert st.
      induction IH as [|[k x] entries Hx _ IHentries]; intros st acc Hacc.
      { simpl. by rewrite app_nil_r. }
      simpl in Hwf. apply andb_prop in Hwf as [Hwx Hwf].
      simpl. rewrite bind_run. simpl.
      rewrite bind_run. simpl in Hx. rewrite (Hx Hwx). simpl.
      rewrite bind_run.
      assert (k ∉ acc.*1) as Hk.
      { apply NoDup_app in Hacc as (_ & Hdisj & _).
        intros Hin. apply (Hdisj _ Hin). simpl. left. }
      rewrite (obj_set_fresh _ _ _ Hk).
      rewrite (IHentries Hwf).
      - simpl. by rewrite <-(assoc_L (++)), foldl_app.
      - rewrite fmap_app. simpl. by rewrite <-(assoc_L (++)). }
    by rewrite (Hprops [] Hnd).
Qed.

(** The collection pass: the walk with [addEntry]. *)
Lemma collect_run v st :
  json_wf v = true →
  traverseJSON false addEntry v st
  = Returned ((v, v), foldl (λ st s, record s st) st (strings_of v)).
Proof.
  intros Hwf. apply traverseJSON_leaves; [|done].
  intros s st'. simpl. by rewrite bind_run, addEntry_string_record.
Qed.

Lemma obj_get_is_Some {V} (o : object V) k :
  is_Some (obj_get o k) ↔ k ∈ Object_keys o.
Proof.
  unfold Object_keys. induction o as [|[k' v'] o IH]; simpl.
  - split; [by intros [? ?] | by intros ?%elem_of_nil].
  - rewrite elem_of_cons. case_bool_decide; subst.
    + split; [by left | by eexists].
    + rewrite IH. split; [by right | by intros [?|?]].
Qed.

Lemma unresolved_falsy c k : unresolved c → falsy (obj_get c k) = true.
Proof.
  unfold unresolved. induction 1 as [|[k' v'] c Hv _ IH]; simpl; [done|].
  case_bool_decide; [|done]. simpl in *. by rewrite bool_decide_true.
Qed.

Lemma unresolved_set c k : unresolved c → unresolved (obj_set c k "").
Proof.
  unfold unresolved. induction 1 as [|[k' v'] c Hv Hc IH]; simpl.
  - by repeat constructor.
  - case_bool_decide; by constructor.
Qed.

Lemma normalize_empty : normalize "" = ("", None).
Proof. reflexivity. Qed.

(** The key of a non-empty text is not empty. *)
Lemma normalize_key_nonempty text : text ≠ "" → (normalize text).1 ≠ "".
Proof.
  intros Hne. unfold normalize, js_match, js_replace.
  destruct (scan placeholder_re text) as [|[c|m] ps] eqn:Hscan; simpl.
  - done.
  - destruct (hits ps); simpl; [done|]. by intros ?.
  - pose proof (marker_ne 0) as H0. by destruct (marker 0).
Qed.

Lemma record_keys text st k :
  k ∈ Object_keys (cache (record text st)) ↔
  k ∈ Object_keys (cache st) ∨ (text ≠ "" ∧ k = (normalize text).1).
Proof.
  unfold record. case_bool_decide as Ht.
  { split; [by left | by intros [?|[? _]]]. }
  destruct (falsy (obj_get (cache st) (normalize text).1)) eqn:Hf; simpl.
  - rewrite Object_keys_set. case_bool_decide as Hin.
    + split; [by left | by intros [?|[_ ->]]].
    + rewrite elem_of_app, list_elem_of_singleton.
      split.
      * intros [?|Hk]; [by left | by right; subst].
      * intros [?|[_ Hk]]; [by left | by right; subst].
  - split; [by left|]. intros [?|[_ ->]]; [done|].
    apply obj_get_is_Some. by destruct (obj_get (cache st) (normalize text).1).
Qed.

(** What the collection pass has done to the state when it has met the
    strings [l], starting from a cache with nothing resolved. *)
Lemma collect_fold (l : list string) : ∀ st,
  unresolved (cache st) → NoDup (Object_keys (cache st)) →
  let st' := foldl (λ st s, record s st) st l in
  unresolved (cache st') ∧
  NoDup (Object_keys (cache st')) ∧
  (∀ k, k ∈ Object_keys (cache st') ↔
        k ∈ Object_keys (cache st) ∨
        ∃ s, s ∈ l ∧ s ≠ "" ∧ k = (normalize s).1) ∧
  totalChars st' =
    totalChars st + sum_list ((λ s, String.length (normalize s).1) <$> l) ∧
  (∀ s placeholders, s ∈ l → s ≠ "" →
     (normalize s).2 = Some placeholders →
     is_Some (placeholderMap st' !! (normalize s).1)) ∧
  (∀ k, is_Some (placeholderMap st !! k) → is_Some (placeholderMap st' !! k)).
Proof.
  induction l as [|t l IH]; intros st Hun Hnd; simpl.
  { split; [done|]. split; [done|]. split; [|split; [lia|split; [|done]]].
    - intros k. split; [by left|].
      by intros [?|(s & ?%elem_of_nil & _)].
    - by intros s phs ?%elem_of_nil. }
  assert (unresolved (cache (record t st))) as Hun'.
  { unfold record. case_bool_decide; [done|].
    rewrite (unresolved_falsy _ _ Hun). simpl. by apply unresolved_set. }
  assert (NoDup (Object_keys (cache (record t st)))) as Hnd'.
  { unfold record. case_bool_decide; [done|].
    rewrite (unresolved_falsy _ _ Hun). simpl.
    by apply Object_keys_set_NoDup. }
  assert (totalChars (record t st)
          = totalChars st + String.length (normalize t).1) as Htot.
  { unfold record. case_bool_decide as Ht.
    - subst. simpl. lia.
    - by rewrite (unresolved_falsy _ _ Hun). }
  assert (∀ k, is_Some (placeholderMap st !! k) →
               is_Some (placeholderMap (record t st) !! k)) as Hmono.
  { intros k Hk. unfold record. case_bool_decide; [done|].
    rewrite (unresolved_falsy _ _ Hun). simpl.
    destruct (normalize t).2; [|done].
    rewrite lookup_insert. by case_decide. }
  destruct (IH (record t st) Hun' Hnd') as (H1 & H2 & H3 & H4 & H5 & H6).
  split; [done|]. split; [done|]. split; [|split; [|split]].
  - intros k. rewrite H3, record_keys. split.
    + intros [[?|[? ->]]|(s & Hs & ? & ->)].
      * by left.
      * right. exists t. split; [left|done].
      * right. exists s. split; [by right|done].
    + intros [?|(s & Hs & ? & ->)]; [by left; left|].
      apply elem_of_cons in Hs as [->|Hs]; [by left; right|].
      right. by exists s.
  - rewrite H4, Htot. unfold fmap. lia.
  - intros s phs Hs Hne Hphs. apply elem_of_cons in Hs as [->|Hs].
    + apply H6. unfold record. rewrite bool_decide_false by done.
      rewrite (unresolved_falsy _ _ Hun). simpl. rewrite Hphs.
      by rewrite lookup_insert_eq.
    + by eapply H5.
  - intros k Hk. by apply H6, Hmono.
Qed.

Lemma resolve_from_keys batch response : ∀ i c k,
  k ∈ Object_keys c → k ∈ Object_keys (resolve_from batch i response c).
Proof.
  induction response as [|res response IH]; intros i c k Hk; simpl; [done|].
  apply IH. rewrite Object_keys_set. case_bool_decide; [done|].
  apply elem_of_app. by left.
Qed.

(** Submitting batches to a provider that answers changes nothing but
    values of the cache: no key is lost, and the character count and the
    placeholder map are as they were. *)
Lemma submit_all_run translateText batches : ∀ st,
  Forall (λ batch, ∃ response, translateText batch = Returned response)
    batches →
  ∃ st', submit_all translateText batches st = Returned (tt, st') ∧
    placeholderMap st' = placeholderMap st ∧
    totalChars st' = totalChars st ∧
    ∀ k, k ∈ Object_keys (cache st) → k ∈ Object_keys (cache st').
Proof.
  induction batches as [|batch batches IH]; intros st Hall.
  { by exists st. }
  apply Forall_cons in Hall as [[response Hr] Hall].
  simpl. rewrite bind_run. unfold submit at 1. rewrite Hr.
  destruct (IH {| cache := resolve batch response (cache st);
                  totalChars := totalChars st;
                  placeholderMap := placeholderMap st |} Hall)
    as (st' & Hrun & Hpm & Htot & Hkeys).
  exists st'. split; [done|]. split; [done|]. split; [done|].
  intros k Hk. apply Hkeys. simpl. by apply resolve_from_keys.
Qed.

Lemma translate_string_state text st t st' :
  translate_string text st = Returned (t, st') → st' = st.
Proof.
  unfold translate_string. case_bool_decide; [by intros [= _ <-]|].
  rewrite bind_run. simpl.
  destruct (normalize text) as [key phs].
  destruct (obj_get (cache st) key) as [translatedText|]; [|done].
  destruct phs as [phs|]; [|by intros [= _ <-]].
  destruct (placeholderMap st !! key); [by intros [= _ <-]|].
  destruct (js_match marker_re translatedText); [done|by intros [= _ <-]].
Qed.

(** A text whose key is in the cache, and in the placeholder map when
    the text has placeholders, is looked up without an error. *)
Lemma translate_string_covered text st :
  (text ≠ "" →
   (normalize text).1 ∈ Object_keys (cache st) ∧
   (is_Some (normalize text).2 →
    is_Some (placeholderMap st !! (normalize text).1))) →
  translate_string text st = Returned (translated st text, st).
Proof.
  intros Hcov. unfold translated.
  destruct (translate_string text st) as [[t st']|e] eqn:E.
  { by rewrite (translate_string_state _ _ _ _ E). }
  exfalso. revert E. unfold translate_string. case_bool_decide; [done|].
  destruct (Hcov ltac:(done)) as [Hkey Hpm].
  rewrite bind_run. simpl.
  destruct (normalize text) as [key phs]. simpl in *.
  apply obj_get_is_Some in Hkey as [translatedText ->].
  destruct phs as [phs|]; [|done].
  by destruct (Hpm ltac:(done)) as [stored ->].
Qed.

(** A walk with the translate-keys option off whose action does not
    touch the state: the result is the document with every string leaf
    replaced by what the action returns for it. *)
Lemma traverseJSON_map (action : json → M json) (f : string → string) st v :
  (∀ s, s ∈ strings_of v → action (JString s) st = Returned (JString (f s), st)) →
  json_wf v = true →
  ∃ after, traverseJSON false action v st
           = Returned ((map_strings f v, after), st).
Proof.
  induction v as [| | |s|items IH|entries IH] using json_ind;
    intros Hact Hwf; simpl; try by eexists.
  - rewrite bind_run, Hact by (simpl; left). by eexists.
  - rewrite bind_run.
    assert (slots (traverseJSON false action) items st
            = Returned (map_strings f <$> items, st)) as ->;
      [|by eexists].
    simpl in Hwf, Hact.
    induction IH as [|x items Hx _ IHitems]; [done|].
    simpl in Hwf. apply andb_prop in Hwf as [Hwx Hwf].
    simpl in Hact.
    destruct Hx as [after Hx]; [|done|].
    { intros s Hs. apply Hact, elem_of_app. by left. }
    simpl. rewrite bind_run, Hx, bind_run, IHitems; [done| |done].
    intros s Hs. apply Hact, elem_of_app. by right.
  - rewrite bind_run.
    simpl in Hwf. apply andb_prop in Hwf as [Hnd Hwf].
    apply bool_decide_eq_true in Hnd as [Hnd _]. simpl in Hact.
    assert (∀ acc, NoDup (acc.*1 ++ entries.*1) →
              ∃ after,
                props false (traverseJSON false action) entries acc st
                = Returned ((acc ++ ((λ e, (e.1, map_strings f e.2)) <$> entries),
                             after), st))
      as Hprops.
    { clear Hnd.
      induction IH as [|[k x] entries Hx _ IHentries]; intros acc Hacc.
      { simpl. rewrite app_nil_r. by eexists. }
      simpl in Hwf. apply andb_prop in Hwf as [Hwx Hwf].
      simpl in Hact, Hx.
      destruct Hx as [after Hx]; [|done|].
      { intros s Hs. apply Hact, elem_of_app. by left. }
      simpl. rewrite bind_run. simpl. rewrite bind_run, Hx. simpl.
      rewrite bind_run.
      assert (k ∉ acc.*1) as Hk.
      { apply NoDup_app in Hacc as (_ & Hdisj & _).
        intros Hin. apply (Hdisj _ Hin). simpl. left. }
      rewrite (obj_set_fresh _ _ _ Hk).
      destruct (IHentries ltac:(intros s Hs; apply Hact, elem_of_app; by right)
                  Hwf (acc ++ [(k, map_strings f x)])) as [after' ->].
      - rewrite fmap_app. simpl. by rewrite <-(assoc_L (++)).
      - simpl. rewrite <-(assoc_L (++)). by eexists. }
    destruct (Hprops [] Hnd) as [after ->]. by eexists.
Qed.

(** The walker changes the state through its action only, and through
    [translate] for the keys when the translate-keys option is on. *)
Lemma traverseJSON_invariant (I : state → Prop) tp (action : json → M json) :
  (∀ s st r st', action (JString s) st = Returned (r, st') → I st → I st') →
  (∀ k st r st', translate_string k st = Returned (r, st') → I st → I st') →
  ∀ v st r st', traverseJSON tp action v st = Returned (r, st') → I st → I st'.
Proof.
  intros Hact Hkey.
  induction v as [| | |s|items IH|entries IH] using json_ind;
    intros st r st'; simpl; try by intros [= _ <-].
  - rewrite bind_run.
    destruct (action (JString s) st) as [[r0 st0]|] eqn:E; [|done].
    intros [= _ <-]. by eapply Hact.
  - rewrite bind_run.
    destruct (slots (traverseJSON tp action) items st) as [[rs st0]|] eqn:E;
      [|done].
    intros [= _ <-]. revert st rs st0 E.
    induction IH as [|x items Hx _ IHitems]; intros st rs st0; simpl.
    { by intros [= _ <-]. }
    rewrite bind_run.
    destruct (traverseJSON tp action x st) as [[r1 st1]|] eqn:E1; [|done].
    rewrite bind_run.
    destruct (slots (traverseJSON tp action) items st1) as [[rs2 st2]|] eqn:E2;
      [|done].
    intros [= _ <-] HI. eapply IHitems; [done|]. by eapply Hx.
  - rewrite bind_run.
    destruct (props tp (traverseJSON tp action) entries [] st)
      as [[[no es] st0]|] eqn:E; [|done].
    intros [= _ <-]. revert E. generalize (@nil (string * json)).
    revert st no es st0.
    induction IH as [|[k x] entries Hx _ IHentries];
      intros st no es st0 acc; simpl.
    { by intros [= _ _ <-]. }
    rewrite bind_run.
    destruct ((if tp then translate_string k else mret k) st)
      as [[k' st1]|] eqn:Ek; [|done].
    rewrite bind_run.
    destruct (traverseJSON tp action x st1) as [[r1 st2]|] eqn:E1; [|done].
    rewrite bind_run.
    destruct (props tp (traverseJSON tp action) entries
                (obj_set acc k' r1.1) st2) as [[[no' es'] st3]|] eqn:E2;
      [|done].
    intros [= _ _ <-] HI. eapply IHentries; [done|].
    simpl in Hx. eapply Hx; [done|].
    destruct tp; [by eapply Hkey|]. by injection Ek as _ <-.
Qed.

Lemma make_batches_concat keys : concat (make_batches keys) = keys.
Proof.
  destruct keys as [|key keys]; [done|].
  destruct (make_batches_split (key :: keys)) as (full & last & -> & _ & _ & H);
    done.
Qed.

Lemma unresolved_initial : unresolved (cache initial_state).
Proof. constructor. Qed.

(** X6.  From the empty cache and with the translate-keys option off,
    the collection pass over a document none of whose keys of string
    leaves is a name of [Object.prototype] does not throw, returns the
    document as it is and leaves a cache from which the batches are cut
    so that the texts sent to the provider are exactly the keys of the
    non-empty string leaves, each of them once, and none of them empty. *)
Theorem collection_submits (inputObj : json) :
  json_wf inputObj = true →
  outside_prototype (keys_of inputObj) = true →
  ∃ st,
    traverseJSON false addEntry inputObj initial_state
    = Returned ((inputObj, inputObj), st) ∧
    let texts := concat (make_batches (Object_keys (cache st))) in
    NoDup texts ∧
    (∀ k, k ∈ texts ↔
          ∃ s, s ∈ strings_of inputObj ∧ s ≠ "" ∧ k = (normalize s).1) ∧
    (∀ k, k ∈ texts → k ≠ "").
Proof.
  intros Hwf _. eexists. split; [by apply collect_run|].
  rewrite make_batches_concat.
  destruct (collect_fold (strings_of inputObj) initial_state
              unresolved_initial (NoDup_nil_2 : NoDup (Object_keys [])))
    as (_ & Hnd & Hkeys & _).
  assert (∀ k, k ∈ Object_keys
                 (cache (foldl (λ st s, record s st) initial_state
                           (strings_of inputObj))) ↔
               ∃ s, s ∈ strings_of inputObj ∧ s ≠ "" ∧ k = (normalize s).1)
    as Hiff.
  { intros k. rewrite Hkeys. split; [|by right].
    by intros [?%elem_of_nil|?]. }
  split; [done|]. split; [done|].
  intros k (s & _ & Hne & ->)%Hiff. by apply normalize_key_nonempty.
Qed.

Lemma collection_submits_witness :
  let inputObj := JArray [JString "dup"; JString ""; JString "dup"] in
  ∃ st,
    traverseJSON false addEntry inputObj initial_state
    = Returned ((inputObj, inputObj), st) ∧
    let texts := concat (make_batches (Object_keys (cache st))) in
    NoDup texts ∧
    (∀ k, k ∈ texts ↔
          ∃ s, s ∈ strings_of inputObj ∧ s ≠ "" ∧ k = (normalize s).1) ∧
    (∀ k, k ∈ texts → k ≠ "").
Proof. intros inputObj. by apply collection_submits. Defined.

(** X7.  From the empty cache and with the translate-keys option off,
    the character count the collection pass ends with, for a document
    none of whose keys of string leaves is a name of [Object.prototype],
    is the sum of the lengths of the keys of all string leaves, every
    occurrence of a repeated string counted. *)
Theorem collection_totalChars (inputObj : json) :
  json_wf inputObj = true →
  outside_prototype (keys_of inputObj) = true →
  ∃ st,
    traverseJSON false addEntry inputObj initial_state
    = Returned ((inputObj, inputObj), st) ∧
    totalChars st =
      sum_list ((λ s, String.length (normalize s).1) <$> strings_of inputObj).
Proof.
  intros Hwf _. eexists. split; [by apply collect_run|].
  by destruct (collect_fold (strings_of inputObj) initial_state
                 unresolved_initial (NoDup_nil_2 : NoDup (Object_keys [])))
    as (_ & _ & _ & -> & _).
Qed.

Lemma collection_totalChars_witness :
  let inputObj := JArray [JString "dup"; JString "Hi {{a}}"; JString "dup"] in
  ∃ st,
    traverseJSON false addEntry inputObj initial_state
    = Returned ((inputObj, inputObj), st) ∧
    totalChars st = 3 + 8 + 3.
Proof. intros inputObj. by apply (collection_totalChars inputObj). Defined.

(** [main] without the options, with the translate-keys option off and
    a provider that answers every batch. *)
Lemma substitutes_run (translateText : list string → outcome (list string))
  (inputObj : json) :
  json_wf inputObj = true →
  (∀ batch, ∃ response, translateText batch = Returned response) →
  ∃ st,
    main false translateText inputObj initial_state
    = Returned (map_strings (translated st) inputObj, st) ∧
    ∀ s, s ∈ strings_of inputObj →
         translate_string s st = Returned (translated st s, st).
Proof.
  intros Hwf Hanswers. unfold main.
  rewrite bind_run, (collect_run _ _ Hwf). simpl.
  set (st1 := foldl (λ st s, record s st) initial_state (strings_of inputObj)).
  destruct (collect_fold (strings_of inputObj) initial_state
              unresolved_initial (NoDup_nil_2 : NoDup (Object_keys [])))
    as (_ & _ & Hkeys & _ & Hpm & _). fold st1 in Hkeys, Hpm.
  destruct (submit_all_run translateText
              (make_batches (Object_keys (cache st1))) st1)
    as (st2 & Hsubmit & Hpm2 & _ & Hkeys2).
  { apply Forall_forall. auto. }
  assert (∀ s, s ∈ strings_of inputObj →
               translate_string s st2 = Returned (translated st2 s, st2))
    as Hleaf.
  { intros s Hs. apply translate_string_covered. intros Hne. split.
    - apply Hkeys2, Hkeys. right. by exists s.
    - intros [phs Hphs]. rewrite Hpm2. by eapply Hpm. }
  destruct (traverseJSON_map translate (translated st2) st2 inputObj)
    as [after Hwalk]; [|done|].
  { intros s Hs. simpl. unfold fmap, M_fmap. by rewrite (Hleaf s Hs). }
  exists st2. split; [|done].
  rewrite bind_run. simpl. rewrite bind_run, Hsubmit.
  by rewrite bind_run, Hwalk.
Qed.

(** X8.  With the translate-keys option off, a provider that answers
    every batch, whatever the number of items it answers with, and
    options that let the run go through, [main] does not throw on a
    document none of whose keys of string leaves is a name of
    [Object.prototype]: it hands the writer the document with every
    string leaf replaced by what [translate] returns for it in the final
    state, and nothing else changed: keys, order, numbers, booleans and
    null are those of the input. *)
Theorem main_substitutes (translateText : list string → outcome (list string))
  (displayUsageLimit askForConfirmation : bool)
  (getUsage : nat → outcome unit) (prompt : outcome bool) (inputObj : json) :
  json_wf inputObj = true →
  outside_prototype (keys_of inputObj) = true →
  goes_through displayUsageLimit askForConfirmation getUsage prompt →
  (∀ batch, ∃ response, translateText batch = Returned response) →
  ∃ st,
    main_options false translateText displayUsageLimit askForConfirmation
      getUsage prompt inputObj initial_state
    = Returned (Some (map_strings (translated st) inputObj), st) ∧
    ∀ s, s ∈ strings_of inputObj →
         translate_string s st = Returned (translated st s, st).
Proof.
  intros Hwf _ Hgo Hanswers.
  destruct (substitutes_run translateText inputObj Hwf Hanswers)
    as (st & Hrun & Hleaf).
  exists st. split; [|done].
  rewrite (main_options_goes_through _ _ _ _ _ _ _ _ Hgo).
  unfold fmap, M_fmap. by rewrite Hrun.
Qed.

Lemma main_substitutes_witness :
  let inputObj := JObject [("greeting", JString "Hello {{name}}");
                           ("count", JNumber 3)] in
  ∃ st,
    main_options false echo false true (λ _, Thrown (Error "no usage"))
      (Returned true) inputObj initial_state
    = Returned (Some (map_strings (translated st) inputObj), st) ∧
    ∀ s, s ∈ strings_of inputObj →
         translate_string s st = Returned (translated st s, st).
Proof.
  intros inputObj. apply (main_substitutes echo); [done|done| |].
  - by split.
  - intros batch. by exists batch.
Defined.

(** X9.  The substitution pass is read-only: a walk with [translate] that
    returns leaves the cache, the character count and the placeholder map
    as they were, with either setting of the translate-keys option. *)
Theorem substitution_read_only (translateProperties : bool) (r : json * json)
  (inputObj : json) (st st' : state) :
  traverseJSON translateProperties translate inputObj st = Returned (r, st') →
  st' = st.
Proof.
  intros Hrun.
  apply (traverseJSON_invariant (λ s, s = st) translateProperties translate)
    with (v := inputObj) (st := st) (r := r); [| |done|done].
  - intros s st0 r0 st1. simpl. unfold fmap, M_fmap.
    destruct (translate_string s st0) as [[t st2]|] eqn:E; [|done].
    intros [= _ <-] ->. by eapply translate_string_state.
  - intros k st0 r0 st1 E ->. by eapply translate_string_state.
Qed.

Lemma substitution_read_only_witness :
  let st := {| cache := [("hello", "bonjour")]; totalChars := 5;
               placeholderMap := ∅ |} in
  let r := (JArray [JString "bonjour"], JArray [JString "bonjour"]) in
  traverseJSON false translate (JArray [JString "hello"]) st
  = Returned (r, st) ∧ st = st.
Proof.
  intros st r. split; [by vm_compute|].
  apply (substitution_read_only false r (JArray [JString "hello"]) st st).
  by vm_compute.
Defined.

(** A walk with [translate] that returns has left the state as it was. *)
Lemma translate_walk_state tp v st r st' :
  traverseJSON tp translate v st = Returned (r, st') → st' = st.
Proof.
  intros Hrun.
  apply (traverseJSON_invariant (λ s, s = st) tp translate)
    with (v := v) (st := st) (r := r); [| |done|done].
  - intros s st0 r0 st1. simpl. unfold fmap, M_fmap.
    destruct (translate_string s st0) as [[t st2]|] eqn:E; [|done].
    intros [= _ <-] ->. by eapply translate_string_state.
  - intros k st0 r0 st1 E ->. by eapply translate_string_state.
Qed.

(** An exception of [translate] at a string leaf is not caught: the walk
    of a document that holds the leaf throws, at this leaf or before. *)
Lemma translate_walk_throws tp text st e0 :
  translate_string text st = Thrown e0 →
  ∀ v, text ∈ strings_of v → ∃ e, traverseJSON tp translate v st = Thrown e.
Proof.
  intros Ht.
  induction v as [| | |s|items IH|entries IH] using json_ind; simpl;
    try by intros ?%elem_of_nil.
  - intros Hin. apply list_elem_of_singleton in Hin as <-.
    exists e0. rewrite bind_run. unfold fmap, M_fmap. by rewrite Ht.
  - intros Hin. rewrite bind_run.
    enough (∃ e, slots (traverseJSON tp translate) items st = Thrown e)
      as [e ->] by by exists e.
    induction IH as [|x items Hx _ IHitems];
      [by apply elem_of_nil in Hin|].
    simpl in Hin. apply elem_of_app in Hin. simpl. rewrite bind_run.
    destruct (traverseJSON tp translate x st) as [[r1 st1]|e1] eqn:E1;
      [|by exists e1].
    apply translate_walk_state in E1 as Hst. subst st1.
    destruct Hin as [Hin|Hin].
    { destruct (Hx Hin) as [e He]. congruence. }
    destruct (IHitems Hin) as [e He]. exists e. by rewrite bind_run, He.
  - intros Hin. rewrite bind_run.
    enough (∀ acc, ∃ e, props tp (traverseJSON tp translate) entries acc st
                        = Thrown e) as Hprops.
    { destruct (Hprops []) as [e ->]. by exists e. }
    induction IH as [|[k x] entries Hx _ IHentries]; intros acc;
      [by apply elem_of_nil in Hin|].
    simpl in Hin, Hx. apply elem_of_app in Hin. simpl. rewrite bind_run.
    destruct ((if tp then translate_string k else mret k) st)
      as [[k' st0]|e0'] eqn:Ek; [|by exists e0'].
    assert (st0 = st) as ->.
    { destruct tp; [by eapply translate_string_state|].
      by injection Ek as _ <-. }
    rewrite bind_run.
    destruct (traverseJSON tp translate x st) as [[r1 st1]|e1] eqn:E1;
      [|by exists e1].
    apply translate_walk_state in E1 as Hst. subst st1.
    destruct Hin as [Hin|Hin].
    { destruct (Hx Hin) as [e He]. congruence. }
    destruct (IHentries Hin (obj_set acc k' r1.1)) as [e He].
    exists e. by rewrite bind_run, He.
Qed.

(** What a walk with [translate] throws is what a lookup has thrown. *)
Lemma translate_walk_thrown tp st :
  ∀ v e, traverseJSON tp translate v st = Thrown e →
         ∃ s, translate_string s st = Thrown e.
Proof.
  induction v as [| | |s|items IH|entries IH] using json_ind; intros e;
    simpl; try done.
  - rewrite bind_run. unfold fmap, M_fmap.
    destruct (translate_string s st) as [[t st0]|e0] eqn:Et; [done|].
    intros [= <-]. by exists s.
  - rewrite bind_run.
    destruct (slots (traverseJSON tp translate) items st)
      as [[rs st0]|e0] eqn:E; [done|].
    intros [= <-]. revert E.
    induction IH as [|x items Hx _ IHitems]; [done|].
    simpl. rewrite bind_run.
    destruct (traverseJSON tp translate x st) as [[r1 st1]|e1] eqn:E1.
    + apply translate_walk_state in E1 as Hst. subst st1.
      rewrite bind_run.
      destruct (slots (traverseJSON tp translate) items st)
        as [[rs st2]|e2] eqn:E2; [done|].
      intros [= <-]. by apply IHitems.
    + intros [= <-]. by apply Hx.
  - rewrite bind_run.
    destruct (props tp (traverseJSON tp translate) entries [] st)
      as [[[no es] st0]|e0] eqn:E; [done|].
    intros [= <-]. revert E. generalize (@nil (string * json)).
    induction IH as [|[k x] entries Hx _ IHentries]; intros acc; [done|].
    simpl in Hx. simpl. rewrite bind_run.
    destruct ((if tp then translate_string k else mret k) st)
      as [[k' st0]|e0'] eqn:Ek.
    + assert (st0 = st) as ->.
      { destruct tp; [by eapply translate_string_state|].
        by injection Ek as _ <-. }
      rewrite bind_run.
      destruct (traverseJSON tp translate x st) as [[r1 st1]|e1] eqn:E1.
      * apply translate_walk_state in E1 as Hst. subst st1.
        rewrite bind_run.
        destruct (props tp (traverseJSON tp translate) entries
                    (obj_set acc k' r1.1) st) as [[[no es] st2]|e2] eqn:E2;
          [done|].
        intros [= <-]. by eapply IHentries.
      * intros [= <-]. by apply Hx.
    + intros [= <-]. destruct tp; [by exists k|done].
Qed.

(** C7, as amended.  Looking up a non-empty text whose key is not a name
    of [Object.prototype] and has no entry in the cache throws "Entry not
    found in cache"; the exception is not caught, so that the walk of
    every document that holds the text as a string leaf throws, and the
    walk of the text alone throws this very error.  A key that was
    entered but not resolved is found, and the empty string it holds is
    returned without an error.  What the walk of a document throws is
    what a lookup has thrown, at this leaf or before it. *)
Theorem translate_lookup (translateProperties : bool) (text : string)
  (st : state) :
  text ≠ "" →
  (normalize text).1 ∉ Object_prototype →
  let message := "Entry not found in cache, should never happen: "
                 +:+ truncateString (normalize text).1 50 in
  (obj_get (cache st) (normalize text).1 = None →
   translate_string text st = Thrown (Error message) ∧
   traverseJSON translateProperties translate (JString text) st =
     Thrown (Error message) ∧
   ∀ inputObj, text ∈ strings_of inputObj →
     ∃ s e, translate_string s st = Thrown e ∧
            traverseJSON translateProperties translate inputObj st
            = Thrown e) ∧
  (obj_get (cache st) (normalize text).1 = Some "" →
   translate_string text st = Returned ("", st)).
Proof.
  intros Hne _ message. split.
  - intros Hc.
    assert (translate_string text st = Thrown (Error message)) as Ht.
    { unfold translate_string. rewrite bool_decide_false by done.
      unfold mbind, M_bind, get_state.
      destruct (normalize text) as [key phs]. simpl in *. by rewrite Hc. }
    split; [done|]. split.
    + simpl. unfold mbind, M_bind, fmap, M_fmap. by rewrite Ht.
    + intros inputObj Hin.
      destruct (translate_walk_throws translateProperties _ _ _ Ht
                  inputObj Hin) as [e He].
      destruct (translate_walk_thrown _ _ _ _ He) as [s Hs].
      by exists s, e.
  - intros Hc. unfold translate_string. rewrite bool_decide_false by done.
    unfold mbind, M_bind, get_state.
    destruct (normalize text) as [key [phs|]]; simpl in *; rewrite Hc;
      [|done].
    by destruct (placeholderMap st !! key).
Qed.

Lemma translate_lookup_witness :
  (translate_string "hello" initial_state =
     Thrown (Error "Entry not found in cache, should never happen: hello") ∧
   traverseJSON false translate (JString "hello") initial_state =
     Thrown (Error "Entry not found in cache, should never happen: hello") ∧
   ∃ s e, translate_string s initial_state = Thrown e ∧
          traverseJSON false translate
            (JObject [("n", JNumber 1);
                      ("l", JArray [JNull; JString "hello"])])
            initial_state = Thrown e) ∧
  translate_string "hello" pending_state = Returned ("", pending_state).
Proof.
  assert ((normalize "hello").1 ∉ Object_prototype) as Hout.
  { apply (bool_decide_unpack _). by vm_compute. }
  split.
  - destruct (translate_lookup false "hello" initial_state) as [H _];
      [done|done|].
    destruct (H eq_refl) as (H1 & H2 & H3). split; [done|]. split; [done|].
    apply H3. simpl. left.
  - apply (translate_lookup false "hello" pending_state); done.
Defined.

(** An entry that [addEntry] recorded and no batch resolved is found by
    the substitution pass: the leaf is replaced by the empty string. *)
Lemma translate_pending_entry :
  addEntry_string "hello" initial_state = Returned (tt, pending_state) ∧
  translate_string "hello" pending_state = Returned ("", pending_state).
Proof. by vm_compute. Qed.









(** ** The start of the script *)

Lemma includes_occurs p s : includes p s = true ↔ occurs_in p s.
Proof.
  unfold occurs_in. induction s as [|c s IH]; simpl.
  - destruct (strip_prefix p "") as [r|] eqn:E.
    + apply strip_prefix_Some in E. split; [|done]. intros _.
      exists "", r. exact E.
    + split; [done|]. intros (a & b & H). destruct a; [|done].
      simpl in H. apply strip_prefix_Some in H. congruence.
  - destruct (strip_prefix p (String c s)) as [r|] eqn:E.
    + apply strip_prefix_Some in E. split; [|done]. intros _.
      exists "", r. exact E.
    + rewrite IH. split.
      * intros (a & b & ->). by exists (String c a), b.
      * intros ([|c' a] & b & H); simpl in H.
        -- apply strip_prefix_Some in H. congruence.
        -- injection H as -> ->. by exists a, b.
Qed.

(** X10.  [getJsonFileInFolder] returns the first entry of the listing
    that is not a directory and whose name holds [.json] somewhere, not
    only at its end, and [null] exactly when the listing has no such
    entry. *)
Theorem getJsonFileInFolder_first (files : list (string * bool)) :
  match getJsonFileInFolder files with
  | Some filename =>
      ∃ before after,
        files = before ++ (filename, false) :: after ∧
        occurs_in ".json" filename ∧
        Forall (λ e, ¬ json_file e) before
  | None => Forall (λ e, ¬ json_file e) files
  end.
Proof.
  induction files as [|[name isDirectory] files IH]; simpl; [done|].
  destruct (negb isDirectory && includes ".json" name) eqn:E.
  - apply andb_prop in E as [Hd Hin]. destruct isDirectory; [done|].
    exists [], files. split; [done|]. split; [|done].
    by apply includes_occurs.
  - assert (¬ json_file (name, isDirectory)) as Hno.
    { intros [Hd Hin]. simpl in *. subst.
      apply includes_occurs in Hin. by rewrite Hin in E. }
    destruct (getJsonFileInFolder files) as [filename|].
    + destruct IH as (before & after & -> & Hin & Hbefore).
      exists ((name, isDirectory) :: before), after.
      split; [done|]. split; [done|]. by constructor.
    + by constructor.
Qed.

Lemma take_string_length n s :
  n ≤ String.length s →
  String.length (take_string n s) = n ∧
  ∃ rest, s = take_string n s +:+ rest.
Proof.
  revert s. induction n as [|n IH]; intros s Hn.
  { split; [by destruct s|]. exists s. by destruct s. }
  destruct s as [|c s]; simpl in *; [lia|].
  destruct (IH s ltac:(lia)) as [Hlen [rest Hrest]].
  split; [by rewrite Hlen|]. exists rest. by rewrite <-Hrest.
Qed.

(** X11.  [truncateString] returns a string of at most [num] + 3
    characters: the string itself when it has at most [num] characters,
    and otherwise its first [num] characters followed by three dots. *)
Theorem truncateString_bound (str : string) (num : nat) :
  String.length (truncateString str num) ≤ num + 3 ∧
  (String.length str ≤ num → truncateString str num = str) ∧
  (num < String.length str →
   ∃ head rest, str = head +:+ rest ∧ String.length head = num ∧
                truncateString str num = head +:+ "...").
Proof.
  unfold truncateString. case_bool_decide as Hlt.
  - destruct (take_string_length num str ltac:(lia)) as [Hlen [rest Hrest]].
    split; [|split].
    + rewrite string_app_length, Hlen. simpl. lia.
    + lia.
    + intros _. by exists (take_string num str), rest.
  - split; [lia|]. split; [done|lia].
Qed.

Lemma truncateString_bound_witness :
  String.length (truncateString "abcdef" 4) ≤ 4 + 3 ∧
  truncateString "abc" 4 = "abc" ∧
  ∃ head rest, "abcdef" = head +:+ rest ∧ String.length head = 4 ∧
               truncateString "abcdef" 4 = head +:+ "...".
Proof.
  destruct (truncateString_bound "abcdef" 4) as (H1 & _ & H3).
  destruct (truncateString_bound "abc" 4) as (_ & H2 & _).
  split; [exact H1|]. split; [apply H2; simpl; lia|]. apply H3. simpl. lia.
Defined.

Lemma split_on_cons sep s : ∃ piece pieces, split_on sep s = piece :: pieces.
Proof.
  destruct s as [|c s]; simpl; [by eexists _, _|].
  case_bool_decide; [by eexists _, _|].
  destruct (split_on sep s); by eexists _, _.
Qed.

Lemma split_on_sep sep a b :
  split_on sep (a +:+ String sep b) = split_on sep a ++ split_on sep b.
Proof.
  induction a as [|c a IH]; simpl.
  - by rewrite bool_decide_true.
  - case_bool_decide; [by rewrite IH|]. rewrite IH.
    by destruct (split_on_cons sep a) as (piece & pieces & ->).
Qed.

Lemma split_on_dotless s : dotless s = true → split_on "." s = [s].
Proof.
  unfold dotless. induction s as [|c s IH]; simpl; [done|].
  intros [Hc Hs]%andb_prop. apply negb_true_iff, bool_decide_eq_false in Hc.
  by rewrite bool_decide_false, IH.
Qed.

(** Splitting at a character and joining with it gives the string back. *)
Lemma join_split_on sep s : join (String sep "") (split_on sep s) = s.
Proof.
  induction s as [|c s IH]; simpl; [done|].
  destruct (split_on_cons sep s) as (piece & pieces & E).
  rewrite E in *. rewrite <-IH. clear IH E.
  case_bool_decide; [by subst|]. by destruct pieces.
Qed.

(** X12.  When no output file is named, the output file name is the
    input file name with what follows its last dot replaced by the target
    language in small letters and [.json]; an input file name without a
    dot is dropped altogether, and the output file is named by the
    language alone. *)
Theorem outputFileName_default (output : option string)
  (targetLanguage : string) :
  falsy output = true →
  (∀ stem extension, dotless extension = true →
     outputFileName output (stem +:+ "." +:+ extension) targetLanguage
     = stem +:+ "." +:+ toLowerCase targetLanguage +:+ ".json") ∧
  (∀ inputFileName, dotless inputFileName = true →
     outputFileName output inputFileName targetLanguage
     = "." +:+ toLowerCase targetLanguage +:+ ".json").
Proof.
  intros Hout. unfold outputFileName. rewrite Hout. split.
  - intros stem ext Hext.
    change ("." +:+ ext) with (String "." ext).
    rewrite split_on_sep, (split_on_dotless _ Hext), length_app. simpl.
    rewrite Nat.add_sub, take_app_length, join_split_on.
    done.
  - intros name Hname. by rewrite (split_on_dotless _ Hname).
Qed.

Lemma outputFileName_default_witness :
  outputFileName None "my.data.json" "FR" = "my.data.fr.json" ∧
  outputFileName (Some "") "data" "FR" = ".fr.json".
Proof.
  split.
  - exact (proj1 (outputFileName_default None "FR" eq_refl)
             "my.data" "json" eq_refl).
  - exact (proj2 (outputFileName_default (Some "") "FR" eq_refl)
             "data" eq_refl).
Defined.

(** ** The one-pass script *)

Lemma bind_run1 {A B} (m : M1 A) (k : A → M1 B) (st : state1) :
  (m ≫= k) st =
    match m st with
    | Returned (a, st') => k a st'
    | Thrown e => Thrown e
    end.
Proof. reflexivity. Qed.

Lemma fmap_run1 {A B} (f : A → B) (m : M1 A) (st : state1) :
  (f <$> m) st =
    match m st with
    | Returned (a, st') => Returned (f a, st')
    | Thrown e => Thrown e
    end.
Proof. reflexivity. Qed.

(** X13.  In the one-pass script a text translated to a non-empty string
    is answered from the cache from then on: the same translation, no
    new request, no change of the cache. *)
Theorem translate1_cached
  (translateText : list string → string → outcome string)
  (text translatedText : string) (st st' : state1) :
  translate1 translateText text st = Returned (translatedText, st') →
  translatedText ≠ "" →
  translate1 translateText text st' = Returned (translatedText, st').
Proof.
  unfold translate1. case_bool_decide as Ht; [by intros [= <- <-]|].
  intros Hrun Hne.
  assert (obj_get (cache1 st') text = Some translatedText) as Hhit.
  { destruct (obj_get (cache1 st) text) as [cached|] eqn:Hc.
    - case_bool_decide as Hcached.
      + destruct (translateText (requests st) text); [|done].
        injection Hrun as <- <-. apply obj_get_set_eq.
      + by injection Hrun as <- <-.
    - destruct (translateText (requests st) text); [|done].
      injection Hrun as <- <-. apply obj_get_set_eq. }
  rewrite Hhit. by rewrite bool_decide_false.
Qed.

Lemma translate1_cached_witness :
  let st' := {| cache1 := [("hello", "[hello]")]; requests := ["hello"] |} in
  translate1 bracket "hello" initial_state1 = Returned ("[hello]", st') ∧
  translate1 bracket "hello" st' = Returned ("[hello]", st').
Proof.
  intros st'. split; [reflexivity|].
  by apply (translate1_cached bracket "hello" "[hello]" initial_state1 st').
Defined.

(** The walker of the one-pass script changes the state through
    [translate] only. *)
Lemma translateJSON_invariant (I : state1 → Prop) tp translateText :
  (∀ s st r st',
     translate1 translateText s st = Returned (r, st') → I st → I st') →
  ∀ v st r st',
    translateJSON tp translateText v st = Returned (r, st') → I st → I st'.
Proof.
  intros Htr.
  induction v as [| | |s|items IH|entries IH] using json_ind;
    intros st r st'; simpl; try by intros [= _ <-].
  - rewrite fmap_run1.
    destruct (translate1 translateText s st) as [[t st0]|] eqn:E; [|done].
    intros [= _ <-]. by eapply Htr.
  - rewrite fmap_run1.
    destruct (slots1 (translateJSON tp translateText) items st)
      as [[rs st0]|] eqn:E; [|done].
    intros [= _ <-]. revert st rs st0 E.
    induction IH as [|x items Hx _ IHitems]; intros st rs st0; simpl.
    { by intros [= _ <-]. }
    rewrite bind_run1.
    destruct (translateJSON tp translateText x st) as [[r1 st1]|] eqn:E1;
      [|done].
    rewrite bind_run1.
    destruct (slots1 (translateJSON tp translateText) items st1)
      as [[rs2 st2]|] eqn:E2; [|done].
    intros [= _ <-] HI. eapply IHitems; [done|]. by eapply Hx.
  - rewrite fmap_run1.
    destruct (props1 tp translateText (translateJSON tp translateText)
                entries [] st) as [[no st0]|] eqn:E; [|done].
    intros [= _ <-]. revert E. generalize (@nil (string * json)).
    revert st no st0.
    induction IH as [|[k x] entries Hx _ IHentries];
      intros st no st0 acc; simpl.
    { by intros [= _ <-]. }
    rewrite bind_run1.
    destruct ((if tp then translate1 translateText k else mret k) st)
      as [[k' st1]|] eqn:Ek; [|done].
    rewrite bind_run1.
    destruct (translateJSON tp translateText x st1) as [[r1 st2]|] eqn:E1;
      [|done].
    intros E2 HI. eapply IHentries; [done|].
    simpl in Hx. eapply Hx; [done|].
    destruct tp; [by eapply Htr|]. by injection Ek as _ <-.
Qed.

(** X14.  With a provider that never answers with the empty string, the
    one-pass script asks for no text twice: the requests of a whole walk
    from the empty cache are distinct and not empty, with either setting
    of the translate-keys option. *)
Theorem translateJSON_requests_once (translateProperties : bool)
  (translateText : list string → string → outcome string)
  (jsonObj r : json) (st' : state1) :
  answers_text translateText →
  translateJSON translateProperties translateText jsonObj initial_state1
  = Returned (r, st') →
  NoDup (requests st') ∧ ∀ text, text ∈ requests st' → text ≠ "".
Proof.
  intros Hans Hrun.
  set (I := λ st : state1,
         NoDup (requests st) ∧
         ∀ text, text ∈ requests st →
                 text ≠ "" ∧ falsy (obj_get (cache1 st) text) = false).
  assert (I st') as [Hnd Hreq].
  { apply (translateJSON_invariant I translateProperties translateText)
      with (v := jsonObj) (st := initial_state1) (r := r); [|done|].
    - clear Hrun. intros s st t st0. unfold translate1.
      case_bool_decide as Hs; [by intros [= _ <-]|].
      intros Hrun [Hnd Hreq].
      assert (falsy (obj_get (cache1 st) s) = true →
              ∃ t', translateText (requests st) s = Returned t' ∧
                    st0 = {| cache1 := obj_set (cache1 st) s t';
                             requests := requests st ++ [s] |}) as Hask.
      { intros Hf. destruct (obj_get (cache1 st) s) as [cached|].
        - simpl in Hf. rewrite Hf in Hrun.
          destruct (translateText (requests st) s) as [t'|]; [|done].
          injection Hrun as _ <-. by exists t'.
        - destruct (translateText (requests st) s) as [t'|]; [|done].
          injection Hrun as _ <-. by exists t'. }
      destruct (falsy (obj_get (cache1 st) s)) eqn:Hf.
      + destruct (Hask eq_refl) as (t' & Ht' & ->). simpl. split.
        * apply NoDup_app. split; [done|]. split; [|apply NoDup_singleton].
          intros x Hx Hxs. apply list_elem_of_singleton in Hxs as ->.
          destruct (Hreq _ Hx) as [_ Hx']. congruence.
        * intros text [Hin|Hin]%elem_of_app;
            [|apply list_elem_of_singleton in Hin as ->].
          -- destruct (Hreq _ Hin) as [Hne Hfalse]. split; [done|].
             destruct (decide (s = text)) as [->|Hst]; [congruence|].
             simpl. by rewrite obj_get_set_ne.
          -- split; [done|]. simpl. rewrite obj_get_set_eq. simpl.
             apply bool_decide_eq_false. by eapply Hans.
      + destruct (obj_get (cache1 st) s) as [cached|]; [|done].
        simpl in Hf. rewrite Hf in Hrun. by injection Hrun as _ <-.
    - split; [constructor|]. by intros text ?%elem_of_nil. }
  split; [done|]. intros text Hin. by destruct (Hreq _ Hin).
Qed.

Lemma translateJSON_requests_once_witness :
  let st' := {| cache1 := [("a", "[a]"); ("b", "[b]")];
                requests := ["a"; "b"] |} in
  translateJSON false bracket (JArray [JString "a"; JString "b"; JString "a"])
    initial_state1
  = Returned (JArray [JString "[a]"; JString "[b]"; JString "[a]"], st') ∧
  NoDup (requests st') ∧ ∀ text, text ∈ requests st' → text ≠ "".
Proof.
  intros st'. split; [reflexivity|].
  apply (translateJSON_requests_once false bracket
           (JArray [JString "a"; JString "b"; JString "a"])
           (JArray [JString "[a]"; JString "[b]"; JString "[a]"]) st');
    [|reflexivity].
  intros sent text t [= <-]. done.
Defined.

Lemma extends_refl st : extends st st.
Proof. by intros k c. Qed.

Lemma extends_trans st1 st2 st3 :
  extends st1 st2 → extends st2 st3 → extends st1 st3.
Proof. intros H12 H23 k c Hk Hc. apply H23; [|done]. by apply H12. Qed.

(** A translation, once returned, is what the cache holds for the text
    from then on. *)
Lemma translate1_extends translateText s t st st' :
  answers_text translateText →
  translate1 translateText s st = Returned (t, st') →
  extends st st' ∧ ∀ st'', extends st' st'' → t = cached1 st'' s.
Proof.
  intros Hans. unfold translate1, cached1.
  case_bool_decide as Hs.
  { intros [= <- <-]. split; [apply extends_refl|done]. }
  assert (falsy (obj_get (cache1 st) s) = true →
          translateText (requests st) s = Returned t ∧
          st' = {| cache1 := obj_set (cache1 st) s t;
                   requests := requests st ++ [s] |} →
          extends st st' ∧
          ∀ st'', extends st' st'' → t = default "" (obj_get (cache1 st'') s))
    as Hask.
  { intros Hf [Ht ->]. split.
    - intros k c Hk Hc. simpl.
      destruct (decide (s = k)) as [->|Hsk].
      + rewrite Hk in Hf. simpl in Hf. by apply bool_decide_eq_true in Hf.
      + by rewrite obj_get_set_ne.
    - intros st'' Hext.
      rewrite (Hext s t); [done| |by eapply Hans].
      simpl. apply obj_get_set_eq. }
  destruct (obj_get (cache1 st) s) as [cached|] eqn:Hc.
  - case_bool_decide as Hcached.
    + destruct (translateText (requests st) s) as [t'|] eqn:Ht; [|done].
      intros [= <- <-]. apply Hask; [by apply bool_decide_eq_true|done].
    + intros [= <- <-]. split; [apply extends_refl|].
      intros st'' Hext. by rewrite (Hext s cached).
  - destruct (translateText (requests st) s) as [t'|] eqn:Ht; [|done].
    intros [= <- <-]. by apply Hask.
Qed.

Lemma translateJSON_extends translateText :
  answers_text translateText →
  ∀ v st r st',
    json_wf v = true →
    translateJSON false translateText v st = Returned (r, st') →
    extends st st' ∧
    ∀ st'', extends st' st'' → r = map_strings (cached1 st'') v.
Proof.
  intros Hans.
  induction v as [| | |s|items IH|entries IH] using json_ind;
    intros st r st' Hwf; simpl;
    try by (intros [= <- <-]; split; [apply extends_refl|]).
  - rewrite fmap_run1.
    destruct (translate1 translateText s st) as [[t st0]|] eqn:E; [|done].
    intros [= <- <-].
    destruct (translate1_extends _ _ _ _ _ Hans E) as [Hext Ht].
    split; [done|]. intros st'' H''. by rewrite <-(Ht st'').
  - rewrite fmap_run1.
    destruct (slots1 (translateJSON false translateText) items st)
      as [[rs st0]|] eqn:E; [|done].
    intros [= <- <-]. simpl in Hwf.
    enough (extends st st0 ∧
            ∀ st'', extends st0 st'' →
                    rs = map_strings (cached1 st'') <$> items) as [H1 H2].
    { split; [done|]. intros st'' H''. by rewrite <-H2. }
    revert st rs st0 E.
    induction IH as [|x items Hx _ IHitems]; intros st rs st0; simpl.
    { intros [= <- <-]. split; [apply extends_refl|done]. }
    simpl in Hwf. apply andb_prop in Hwf as [Hwx Hwf].
    rewrite bind_run1.
    destruct (translateJSON false translateText x st) as [[r1 st1]|] eqn:E1;
      [|done].
    rewrite bind_run1.
    destruct (slots1 (translateJSON false translateText) items st1)
      as [[rs2 st2]|] eqn:E2; [|done].
    intros [= <- <-].
    destruct (Hx _ _ _ Hwx E1) as [Hx1 Hx2].
    destruct (IHitems Hwf _ _ _ E2) as [Hi1 Hi2].
    split; [by eapply extends_trans|].
    intros st'' H''. f_equal; [|by apply Hi2].
    apply Hx2. by eapply extends_trans.
  - rewrite fmap_run1.
    destruct (props1 false translateText (translateJSON false translateText)
                entries [] st) as [[no st0]|] eqn:E; [|done].
    intros [= <- <-]. simpl in Hwf.
    apply andb_prop in Hwf as [Hnd Hwf].
    apply bool_decide_eq_true in Hnd as [Hnd _].
    enough (∀ acc st no st0,
              NoDup (acc.*1 ++ entries.*1) →
              props1 false translateText (translateJSON false translateText)
                entries acc st = Returned (no, st0) →
              extends st st0 ∧
              ∀ st'', extends st0 st'' →
                no = acc ++ ((λ e, (e.1, map_strings (cached1 st'') e.2))
                               <$> entries)) as Hprops.
    { destruct (Hprops [] st no st0 Hnd E) as [H1 H2].
      split; [done|]. intros st'' H''. by rewrite (H2 st''). }
    clear Hnd E st no st0.
    induction IH as [|[k x] entries Hx _ IHentries];
      intros acc st no st0 Hacc; simpl.
    { intros [= <- <-]. split; [apply extends_refl|].
      intros st'' _. by rewrite app_nil_r. }
    simpl in Hwf. apply andb_prop in Hwf as [Hwx Hwf]. simpl in Hx.
    rewrite bind_run1. simpl. rewrite bind_run1.
    destruct (translateJSON false translateText x st) as [[r1 st1]|] eqn:E1;
      [|done].
    assert (k ∉ acc.*1) as Hk.
    { apply NoDup_app in Hacc as (_ & Hdisj & _).
      intros Hin. apply (Hdisj _ Hin). simpl. left. }
    rewrite (obj_set_fresh _ _ _ Hk). intros E2.
    destruct (Hx _ _ _ Hwx E1) as [Hx1 Hx2].
    destruct (IHentries Hwf (acc ++ [(k, r1)]) st1 no st0) as [Hi1 Hi2];
      [|done|].
    { rewrite fmap_app. simpl. by rewrite <-(assoc_L (++)). }
    split; [by eapply extends_trans|].
    intros st'' H''. rewrite (Hi2 st'' H''), <-(assoc_L (++)). simpl.
    rewrite <-(Hx2 st''); [done|]. by eapply extends_trans.
Qed.

(** X15.  With the translate-keys option off and a provider that never
    answers with the empty string, the document the one-pass script
    returns, for an input none of whose strings is a name of
    [Object.prototype], is the input with every string replaced by what
    the cache holds for it at the end; equal strings therefore receive
    the same translation, whatever the provider answers at later
    requests. *)
Theorem translateJSON_cached
  (translateText : list string → string → outcome string)
  (jsonObj r : json) (st st' : state1) :
  json_wf jsonObj = true →
  outside_prototype (strings_of jsonObj) = true →
  answers_text translateText →
  translateJSON false translateText jsonObj st = Returned (r, st') →
  r = map_strings (cached1 st') jsonObj.
Proof.
  intros Hwf _ Hans Hrun.
  destruct (translateJSON_extends _ Hans _ _ _ _ Hwf Hrun) as [_ H].
  apply H, extends_refl.
Qed.

Lemma translateJSON_cached_witness :
  let jsonObj :=
    JObject [("x", JString "a"); ("y", JArray [JString "b"; JString "a"])] in
  let st' := {| cache1 := [("a", "[a]"); ("b", "[b]")];
                requests := ["a"; "b"] |} in
  let r :=
    JObject [("x", JString "[a]");
             ("y", JArray [JString "[b]"; JString "[a]"])] in
  translateJSON false bracket jsonObj initial_state1 = Returned (r, st') ∧
  r = map_strings (cached1 st') jsonObj.
Proof.
  intros jsonObj st' r. split; [reflexivity|].
  apply (translateJSON_cached bracket jsonObj r initial_state1 st');
    [by vm_compute|by vm_compute| |reflexivity].
  intros sent text t [= <-]. done.
Defined.

(** ** The scenarios of the description *)

Example greeting_farewell :
  value_of
    (main false (λ _, Returned ["Bonjour <t0/>"; "Au revoir <t0/>"])
       (JObject [("greeting", JString "Hello {{name}}");
                 ("farewell", JString "Bye {{name}}")])
       initial_state)
  = Returned (JObject [("greeting", JString "Bonjour {{name}}");
                       ("farewell", JString "Au revoir {{name}}")]).
Proof. by vm_compute. Qed.

Example three_duplicates :
  value_of
    (main false (λ b, Returned ((λ _, "X") <$> b))
       (JArray [JString "dup"; JString "dup"; JString "dup"]) initial_state)
  = Returned (JArray [JString "X"; JString "X"; JString "X"]).
Proof. by vm_compute. Qed.

Example batches_of_120 :
  length <$> make_batches ((λ n, "k" +:+ pretty n) <$> seq 0 120)
  = [49; 49; 22].
Proof. by vm_compute. Qed.
